(** * Package [system]: dependency graph and initialisation order

    A shallow embedding of [system.go].  The file holds two copies of the
    package: the earlier one (lines 1-176, importing
    [github.com/qamarian-etc/slices]) is embedded in [Module Legacy], the
    later one (lines 178-365, importing [gopkg.in/qamarian-etc/slices.v1])
    at top level.

    Go values are modelled as follows.
    - [string] is a byte sequence: Rocq's [string].
    - A slice that the package owns and never shares ([systemElements] and
      the locals [elements], [initOrder], [waitingList]) is a [list string].
    - A slice that is shared with the caller (the [dependencies] argument of
      [AddElement], which is stored as it is) is a [slice]: a view on a
      backing array that lives in [arrays], a store the caller can write.
    - [map[string][]string] is a [gmap string slice]; reading a key that is
      absent gives the nil slice.
    - The receiver [*System] is threaded through every operation as part of
      a [state].
    - Recursion that is not structural takes a [fuel]; [OutOfFuel] is shown
      unreachable for the fuel [InitOrder] supplies. *)

From Stdlib Require Import String Ascii ZArith.
From stdpp Require Import base numbers list strings gmap.

Local Open Scope string_scope.
Local Open Scope list_scope.

(** ** Go values *)

Inductive error : Type :=
| ErrAlreadyAdded
| ErrCircleDetected
| ErrElementMissing
| errors_New (text : string).

#[global] Instance error_eq_dec : EqDecision error.
Proof. solve_decision. Defined.

(** Outcome of running a piece of Go code: it returns, it faults with a
    run-time panic, or the model's fuel ran out. *)
Inductive exec (A : Type) : Type :=
| Done (a : A)
| Panic (msg : string)
| OutOfFuel.
Arguments Done {A} a.
Arguments Panic {A} msg.
Arguments OutOfFuel {A}.

(** A slice header: backing array, first index, length. *)
Record slice : Type := Slice { array : nat; offset : nat; len : nat }.

Definition nilSlice : slice := Slice 0 0 0.

Record System : Type := mkSystem {
  systemElements : list string;
  dependencies : gmap string slice;
  addedElements : string
}.

Record state : Type := mkState {
  arrays : gmap nat (list string);
  system : System
}.

(** The strings a slice denotes in the current store. *)
Definition contents (σ : state) (s : slice) : list string :=
  take (len s) (drop (offset s) (default [] (arrays σ !! array s))).

(** [someSystem.dependencies [element]] *)
Definition dependenciesOf (σ : state) (element : string) : list string :=
  contents σ (default nilSlice (dependencies (system σ) !! element)).

(** A write [s[i] = v] by the code that owns the array. *)
Definition callerWrite (σ : state) (a i : nat) (v : string) : state :=
  mkState (alter (fun l => <[i := v]> l) a (arrays σ)) (system σ).

(** ** Imported helpers *)

(** [strings.Contains] of Go's standard library: [substr] occurs somewhere
    within [s]. *)
Fixpoint Contains (s substr : string) : bool :=
  if String.prefix substr s then true
  else match s with
       | EmptyString => false
       | String _ s' => Contains s' substr
       end.

(** Package [slices] is imported and its source is not part of this
    repository.  Its three helpers are modelled as the linear scans that
    their names and their uses in [addToInitOrder] describe.  They read
    their argument and return a value of their own: the spec has all working
    state of [InitOrder] local to the call, so the removal is taken not to
    write to the array behind [systemElements]. *)

(** Modelled from the spec: [slices.IsElementInStringSlice], missing from
    the sources; whether [element] is one of the strings of [slice]. *)
Fixpoint IsElementInStringSlice (slice : list string) (element : string) : bool :=
  match slice with
  | [] => false
  | value :: rest =>
      if String.eqb value element then true
      else IsElementInStringSlice rest element
  end.

(** Modelled from the spec: [slices.IndexInStringSlice], missing from the
    sources; the index of the first occurrence of [element], or [-1]. *)
Fixpoint IndexInStringSlice_from (index : Z) (slice : list string) (element : string) : Z :=
  match slice with
  | [] => (-1)%Z
  | value :: rest =>
      if String.eqb value element then index
      else IndexInStringSlice_from (index + 1)%Z rest element
  end.

Definition IndexInStringSlice (slice : list string) (element : string) : Z :=
  IndexInStringSlice_from 0%Z slice element.

(** Modelled from the spec: [slices.RemoveFromStringSlice], missing from
    the sources; [slice] without [element].  The lists it is used on hold no
    identifier twice, where removing the first occurrence and removing every
    occurrence are the same (lemma [RemoveFromStringSlice_filter]). *)
Fixpoint RemoveFromStringSlice (slice : list string) (element : string) : list string :=
  match slice with
  | [] => []
  | value :: rest =>
      if String.eqb value element then rest
      else value :: RemoveFromStringSlice rest element
  end.

(** ** The package, later copy (lines 178-365) *)

Definition New : System :=
  mkSystem [] ∅ "".

(** The [range] loop of [AddElement] over the dependency identifiers. *)
Fixpoint hasEmptyDependency (dependencies : list string) : bool :=
  match dependencies with
  | [] => false
  | dep :: rest => if String.eqb dep "" then true else hasEmptyDependency rest
  end.

Definition AddElement (σ : state) (newElement : string) (dependencies0 : slice)
  : option error * state :=
  if String.eqb newElement "" then
    (Some (errors_New "Empty string can not be used as ID of an element."), σ)
  else if hasEmptyDependency (contents σ dependencies0) then
    (Some (errors_New "The ID of a dependency is an empty string."), σ)
  else if Contains (addedElements (system σ)) (newElement +:+ "/") then
    (Some ErrAlreadyAdded, σ)
  else
    (None,
     mkState (arrays σ)
       (mkSystem (systemElements (system σ) ++ [newElement])
                 (<[newElement := dependencies0]> (dependencies (system σ)))
                 (addedElements (system σ) +:+ newElement +:+ "/"))).

(** The four results of [addToInitOrder], in the order of the source. *)
Definition results : Type := list string * list string * option error * string.

Section Traversal.

(** The recursive call, as the loop sees it. *)
Variable visit : list string -> string -> list string -> state -> exec (results * state).

(** [for _, dependency := range someSystem.dependencies [element]] with
    the loop's running [initOrder] and [elements]. *)
Fixpoint rangeDependencies (deps : list string) (initOrder elements : list string)
    (σ : state) : exec (results * state) :=
  match deps with
  | [] => Done ((initOrder, elements, None, ""), σ)
  | dependency :: rest =>
      if IsElementInStringSlice initOrder dependency then
        rangeDependencies rest initOrder elements σ
      else if (IndexInStringSlice elements dependency =? -1)%Z then
        Done (([], [], Some ErrElementMissing,
               "Dependency '" +:+ dependency +:+ "' is missing"), σ)
      else
        match visit initOrder dependency elements σ with
        | Done ((initOrder', elements', Some errZ, errDescp), σ') =>
            Done (([], [], Some errZ, errDescp), σ')
        | Done ((initOrder', elements', None, _), σ') =>
            rangeDependencies rest initOrder' elements' σ'
        | Panic msg => Panic msg
        | OutOfFuel => OutOfFuel
        end
  end.

End Traversal.

Fixpoint addToInitOrder (fuel : nat) (initOrder : list string) (element : string)
    (waitingList elements : list string) (σ : state) : exec (results * state) :=
  match fuel with
  | O => OutOfFuel
  | S fuel' =>
      if IsElementInStringSlice waitingList element then
        Done (([], [], Some ErrCircleDetected,
               "Element '" +:+ element +:+ "' is part of the circle."), σ)
      else if (length (dependenciesOf σ element) =? 0)%nat then
        Done ((initOrder ++ [element], RemoveFromStringSlice elements element, None, ""), σ)
      else
        let waitingList' := waitingList ++ [element] in
        match rangeDependencies
                (fun initOrder0 dependency elements0 σ0 =>
                   addToInitOrder fuel' initOrder0 dependency waitingList' elements0 σ0)
                (dependenciesOf σ element) initOrder elements σ with
        | Done ((initOrder', elements', None, _), σ') =>
            let waitingList'' := RemoveFromStringSlice waitingList' element in
            Done ((initOrder' ++ [element],
                   RemoveFromStringSlice elements' element, None, ""), σ')
        | other => other
        end
  end.

(** The [for] loop of [InitOrder]; [depth] is the fuel handed to each call
    of [addToInitOrder]. *)
Fixpoint InitOrder_loop (fuel depth : nat) (initOrder elements waitingList : list string)
    (σ : state) : exec ((list string * option error * string) * state) :=
  match fuel with
  | O => OutOfFuel
  | S fuel' =>
      match elements with
      | [] => Done ((initOrder, None, ""), σ)
      | elementUnderProcessing :: _ =>
          match addToInitOrder depth initOrder elementUnderProcessing
                  waitingList elements σ with
          | Done ((initOrder', elements', Some errX, errDescp), σ') =>
              Done (([], Some errX, errDescp), σ')
          | Done ((initOrder', elements', None, _), σ') =>
              InitOrder_loop fuel' depth initOrder' elements' waitingList σ'
          | Panic msg => Panic msg
          | OutOfFuel => OutOfFuel
          end
      end
  end.

Definition InitOrder (σ : state) : exec ((list string * option error * string) * state) :=
  let elements := systemElements (system σ) in
  InitOrder_loop (S (length elements)) (S (length elements)) [] elements [] σ.

(** ** The package, earlier copy (lines 1-176) *)

Module Legacy.

(** No validation of the identifiers in this copy. *)
Definition AddElement (σ : state) (newElement : string) (dependencies0 : slice)
  : option error * state :=
  if Contains (addedElements (system σ)) (newElement +:+ "/") then
    (Some ErrAlreadyAdded, σ)
  else
    (None,
     mkState (arrays σ)
       (mkSystem (systemElements (system σ) ++ [newElement])
                 (<[newElement := dependencies0]> (dependencies (system σ)))
                 (addedElements (system σ) +:+ newElement +:+ "/"))).

Fixpoint addToInitOrder (fuel : nat) (initOrder : list string) (element : string)
    (waitingList elements : list string) (σ : state) : exec (results * state) :=
  match fuel with
  | O => OutOfFuel
  | S fuel' =>
      if IsElementInStringSlice waitingList element then
        Done (([], [], Some ErrCircleDetected,
               "Element '" +:+ element +:+ "' is part of the circle"), σ)
      else if (length (dependenciesOf σ element) =? 0)%nat then
        Done ((initOrder ++ [element], RemoveFromStringSlice elements element, None, ""), σ)
      else
        let waitingList' := waitingList ++ [element] in
        match rangeDependencies
                (fun initOrder0 dependency elements0 σ0 =>
                   addToInitOrder fuel' initOrder0 dependency waitingList' elements0 σ0)
                (dependenciesOf σ element) initOrder elements σ with
        | Done ((initOrder', elements', None, _), σ') =>
            let waitingList'' := RemoveFromStringSlice waitingList' element in
            Done ((initOrder' ++ [element],
                   RemoveFromStringSlice elements' element, None, ""), σ')
        | other => other
        end
  end.

(** The loop reads [elements [0]] first and tests [len (elements) == 0]
    only after the call. *)
Fixpoint InitOrder_loop (fuel depth : nat) (initOrder elements waitingList : list string)
    (σ : state) : exec ((list string * option error * string) * state) :=
  match fuel with
  | O => OutOfFuel
  | S fuel' =>
      match elements with
      | [] => Panic "runtime error: index out of range"
      | elementUnderProcessing :: _ =>
          match addToInitOrder depth initOrder elementUnderProcessing
                  waitingList elements σ with
          | Done ((initOrder', elements', Some errX, errDescp), σ') =>
              Done (([], Some errX, errDescp), σ')
          | Done ((initOrder', elements', None, _), σ') =>
              if (length elements' =? 0)%nat then Done ((initOrder', None, ""), σ')
              else InitOrder_loop fuel' depth initOrder' elements' waitingList σ'
          | Panic msg => Panic msg
          | OutOfFuel => OutOfFuel
          end
      end
  end.

Definition InitOrder (σ : state) : exec ((list string * option error * string) * state) :=
  let elements := systemElements (system σ) in
  InitOrder_loop (S (length elements)) (S (length elements)) [] elements [] σ.

End Legacy.

(** ** The traversal with its history

    The same code as [addToInitOrder] and [InitOrder], which in addition
    records what the traversal does: every entry to the recursive helper
    with its four arguments, and every dependency the loop takes up with the
    [initOrder] and [elements] of that moment.  [erase_addToInitOrder] and
    [erase_InitOrder] show that dropping the history gives the code. *)

Inductive event : Type :=
| Enter (initOrder : list string) (element : string) (waitingList elements : list string)
| Examine (element : string) (initOrder : list string) (dependency : string)
    (elements : list string).

Definition erase {A : Type} (x : exec (A * list event)) : exec A :=
  match x with
  | Done (a, _) => Done a
  | Panic msg => Panic msg
  | OutOfFuel => OutOfFuel
  end.

Section TracedTraversal.

Variable visit :
  list string -> string -> list string -> state -> exec (results * state * list event).

(** The element whose dependencies the loop runs over. *)
Variable element : string.

Fixpoint rangeDependenciesT (deps : list string) (initOrder elements : list string)
    (σ : state) : exec (results * state * list event) :=
  match deps with
  | [] => Done ((initOrder, elements, None, ""), σ, [])
  | dependency :: rest =>
      let here := Examine element initOrder dependency elements in
      if IsElementInStringSlice initOrder dependency then
        match rangeDependenciesT rest initOrder elements σ with
        | Done (r, σ', log) => Done (r, σ', here :: log)
        | other => other
        end
      else if (IndexInStringSlice elements dependency =? -1)%Z then
        Done (([], [], Some ErrElementMissing,
               "Dependency '" +:+ dependency +:+ "' is missing"), σ, [here])
      else
        match visit initOrder dependency elements σ with
        | Done ((initOrder', elements', Some errZ, errDescp), σ', log) =>
            Done (([], [], Some errZ, errDescp), σ', here :: log)
        | Done ((initOrder', elements', None, _), σ', log) =>
            match rangeDependenciesT rest initOrder' elements' σ' with
            | Done (r, σ'', log') => Done (r, σ'', here :: log ++ log')
            | other => other
            end
        | Panic msg => Panic msg
        | OutOfFuel => OutOfFuel
        end
  end.

End TracedTraversal.

Fixpoint addToInitOrderT (fuel : nat) (initOrder : list string) (element : string)
    (waitingList elements : list string) (σ : state)
  : exec (results * state * list event) :=
  match fuel with
  | O => OutOfFuel
  | S fuel' =>
      let here := Enter initOrder element waitingList elements in
      if IsElementInStringSlice waitingList element then
        Done (([], [], Some ErrCircleDetected,
               "Element '" +:+ element +:+ "' is part of the circle."), σ, [here])
      else if (length (dependenciesOf σ element) =? 0)%nat then
        Done ((initOrder ++ [element], RemoveFromStringSlice elements element, None, ""),
              σ, [here])
      else
        let waitingList' := waitingList ++ [element] in
        match rangeDependenciesT
                (fun initOrder0 dependency elements0 σ0 =>
                   addToInitOrderT fuel' initOrder0 dependency waitingList' elements0 σ0)
                element (dependenciesOf σ element) initOrder elements σ with
        | Done ((initOrder', elements', None, _), σ', log) =>
            Done ((initOrder' ++ [element],
                   RemoveFromStringSlice elements' element, None, ""), σ', here :: log)
        | Done (r, σ', log) => Done (r, σ', here :: log)
        | other => other
        end
  end.

Fixpoint InitOrder_loopT (fuel depth : nat) (initOrder elements waitingList : list string)
    (σ : state) : exec ((list string * option error * string) * state * list event) :=
  match fuel with
  | O => OutOfFuel
  | S fuel' =>
      match elements with
      | [] => Done ((initOrder, None, ""), σ, [])
      | elementUnderProcessing :: _ =>
          match addToInitOrderT depth initOrder elementUnderProcessing
                  waitingList elements σ with
          | Done ((initOrder', elements', Some errX, errDescp), σ', log) =>
              Done (([], Some errX, errDescp), σ', log)
          | Done ((initOrder', elements', None, _), σ', log) =>
              match InitOrder_loopT fuel' depth initOrder' elements' waitingList σ' with
              | Done (r, σ'', log') => Done (r, σ'', log ++ log')
              | other => other
              end
          | Panic msg => Panic msg
          | OutOfFuel => OutOfFuel
          end
      end
  end.

Definition InitOrderT (σ : state)
  : exec ((list string * option error * string) * state * list event) :=
  let elements := systemElements (system σ) in
  InitOrder_loopT (S (length elements)) (S (length elements)) [] elements [] σ.

(** ** Graphs a program can build *)

(** What a caller can reach from [New ()]: calls of [AddElement] (failed
    ones included) and writes to the arrays it owns. *)
Inductive reachable : state -> Prop :=
| reach_New (mem : gmap nat (list string)) :
    reachable (mkState mem New)
| reach_AddElement σ newElement deps :
    reachable σ -> reachable (snd (AddElement σ newElement deps))
| reach_write σ a i v :
    reachable σ -> reachable (callerWrite σ a i v).

(** The text [AddElement] keeps in [addedElements] for a list of identifiers. *)
Fixpoint addedText (ids : list string) : string :=
  match ids with
  | [] => ""
  | id :: rest => id +:+ "/" +:+ addedText rest
  end.

(** Invariant of every reachable graph. *)
Record wf (σ : state) : Prop := mkWf {
  wf_nodup : NoDup (systemElements (system σ));
  wf_added : addedElements (system σ) = addedText (systemElements (system σ));
  wf_dom : forall id, id ∈ systemElements (system σ) <-> is_Some (dependencies (system σ) !! id);
  wf_nonempty : "" ∉ systemElements (system σ)
}.

(** ** Reading the history *)

(** The two descriptions [addToInitOrder] returns with a failure. *)
Definition circleText (element : string) : string :=
  "Element '" +:+ element +:+ "' is part of the circle.".

Definition missingText (dependency : string) : string :=
  "Dependency '" +:+ dependency +:+ "' is missing".

(** The failure the code returns at an event, when its test there fails. *)
Definition verdict (ev : event) : option (error * string) :=
  match ev with
  | Enter _ element waitingList _ =>
      if IsElementInStringSlice waitingList element
      then Some (ErrCircleDetected, circleText element) else None
  | Examine _ initOrder dependency elements =>
      if IsElementInStringSlice initOrder dependency then None
      else if (IndexInStringSlice elements dependency =? -1)%Z
           then Some (ErrElementMissing, missingText dependency) else None
  end.

(** A result agrees with a history when every failed test of the history is
    the failure the result reports, with nil for the two lists. *)
Definition agrees (r : results) (log : list event) : Prop :=
  forall ev err descr, ev ∈ log -> verdict ev = Some (err, descr) ->
    r = ([], [], Some err, descr).

(** The same for the three results of [InitOrder]. *)
Definition agreesTop (R : list string * option error * string) (log : list event) : Prop :=
  forall ev err descr, ev ∈ log -> verdict ev = Some (err, descr) ->
    R = ([], Some err, descr).

(** ** Invariants of the traversal *)

(** Every identifier of [initOrder] comes after its dependencies. *)
Definition depsFirst (σ : state) (initOrder : list string) : Prop :=
  forall j x, initOrder !! j = Some x ->
    forall d, d ∈ dependenciesOf σ x -> exists i, i < j /\ initOrder !! i = Some d.

(** [d] stands at an earlier position than [e] in [l]. *)
Definition precedes (d e : string) (l : list string) : Prop :=
  exists i j, i < j /\ l !! i = Some d /\ l !! j = Some e.

(** What holds whenever the traversal enters the helper or takes up a
    dependency: the working list and the order built so far split the
    graph, what waits is still in the working list, and a dependency that is
    taken up is one of an element of the graph. *)
Definition eventInv (σ : state) (ev : event) : Prop :=
  match ev with
  | Enter initOrder _ waitingList elements =>
      initOrder ++ elements ≡ₚ systemElements (system σ) /\
      (forall w, w ∈ waitingList -> w ∈ elements)
  | Examine element initOrder dependency elements =>
      element ∈ systemElements (system σ) /\
      dependency ∈ dependenciesOf σ element /\
      initOrder ++ elements ≡ₚ systemElements (system σ)
  end.

(** What a successful call of the helper for [e] has established. *)
Definition post (σ : state) (io : list string) (e : string) (wl : list string) (r : results) : Prop :=
  match r with
  | (io', els', None, _) =>
      io' ++ els' ≡ₚ systemElements (system σ) /\
      (forall w, w ∈ wl -> w ∈ els') /\
      depsFirst σ io' /\
      exists mid, io' = io ++ mid ++ [e]
  | _ => True
  end.

(** What a completed loop over [deps] has established. *)
Definition postLoop (σ : state) (io : list string) (deps wl : list string) (r : results) : Prop :=
  match r with
  | (io', els', None, _) =>
      io' ++ els' ≡ₚ systemElements (system σ) /\
      (forall w, w ∈ wl -> w ∈ els') /\
      depsFirst σ io' /\
      (exists mid, io' = io ++ mid) /\
      (forall d, d ∈ deps -> d ∈ io')
  | _ => True
  end.

(** [e] names [d] among its dependencies. *)
Definition dependsOn (σ : state) (e d : string) : Prop :=
  d ∈ dependenciesOf σ e.

(** No element of the graph names a dependency that is not in the graph. *)
Definition complete (σ : state) : Prop :=
  forall e d, e ∈ systemElements (system σ) -> dependsOn σ e d ->
              d ∈ systemElements (system σ).

(** The state is dropped from an outcome. *)
Definition result_of {A : Type} (x : exec (A * state)) : exec A :=
  match x with
  | Done (a, _) => Done a
  | Panic msg => Panic msg
  | OutOfFuel => OutOfFuel
  end.

(** ** Steps of the package *)

(** One call of an operation of the package (later copy). *)
Inductive packageStep : state -> state -> Prop :=
| step_AddElement σ id deps :
    packageStep σ (snd (AddElement σ id deps))
| step_InitOrder σ R σ' :
    InitOrder σ = Done (R, σ') -> packageStep σ σ'.

(** ** Example graphs *)

Definition exampleArrays : gmap nat (list string) :=
  {[ 1 := ["A"]; 2 := ["A"; "B"]; 3 := ["Z"]; 4 := ["Y"]; 5 := ["X"]; 6 := ["B"; "C"];
     7 := [""] ]}.

Definition fresh : state := mkState exampleArrays New.

Definition added (σ : state) (id : string) (deps : slice) : state :=
  snd (AddElement σ id deps).

(** [A], [B -> A], [C -> A, B] *)
Definition linearGraph : state :=
  added (added (added fresh "A" nilSlice) "B" (Slice 1 0 1)) "C" (Slice 2 0 2).

(** [A], [B -> A], [C -> A], [D -> B, C] *)
Definition diamondGraph : state :=
  added (added (added (added fresh "A" nilSlice) "B" (Slice 1 0 1)) "C" (Slice 1 0 1))
        "D" (Slice 6 0 2).

(** [A -> A] *)
Definition selfCycle : state := added fresh "A" (Slice 1 0 1).

(** [X -> Y], [Y -> X] *)
Definition mutualCycle : state :=
  added (added fresh "X" (Slice 4 0 1)) "Y" (Slice 5 0 1).

(** [A -> Z], and no [Z] *)
Definition missingZ : state := added fresh "A" (Slice 3 0 1).

(** The linear example with another text in [addedElements]. *)
Definition linearGraph' : state :=
  mkState (arrays linearGraph)
    (mkSystem (systemElements (system linearGraph))
              (dependencies (system linearGraph)) "").

(** ** Notions for the further properties *)

(** Consecutive identifiers of [l] are an element and one of its
    dependencies. *)
Definition chained (σ : state) (l : list string) : Prop :=
  forall i x y, l !! i = Some x -> l !! S i = Some y -> dependsOn σ x y.

(** No element of the graph depends on itself, directly or through others. *)
Definition acyclic (σ : state) : Prop :=
  forall e, e ∈ systemElements (system σ) -> ~ tc (dependsOn σ) e e.

(** Every entry of a history is made along a chain. *)
Definition entriesChained (σ : state) (log : list event) : Prop :=
  forall io e wl els, Enter io e wl els ∈ log -> chained σ (wl ++ [e]).

(** The results of the helper when [new] is appended to the working list. *)
Definition extendWith (new : string) (r : results) : results :=
  match r with
  | (io, els, None, descr) => (io, els ++ [new], None, descr)
  | _ => r
  end.

(** What the helper returns when it finds the dependency [d] missing. *)
Definition missingOf (d : string) : results :=
  ([], [], Some ErrElementMissing, missingText d).

(** A successful call that started from [io] and [els] has not met [new],
    and has lost no identifier. *)
Definition keepsOut (new : string) (io els : list string) (r : results) : Prop :=
  match r with
  | (io', els', None, _) =>
      (new ∉ io') /\ (new ∉ els') /\
      (forall x, x ∈ io \/ x ∈ els -> x ∈ io' \/ x ∈ els')
  | _ => True
  end.

(** The description the later copy gives where the earlier copy gives
    [descr]: the text for a circle ends with a full stop there. *)
Definition laterText (err : option error) (descr : string) : string :=
  match err with
  | Some ErrCircleDetected => descr +:+ "."
  | _ => descr
  end.

Definition toLater (x : exec (results * state)) : exec (results * state) :=
  match x with
  | Done ((io, els, err, descr), s) => Done ((io, els, err, laterText err descr), s)
  | other => other
  end.

(** What a caller can reach from [New ()] with the earlier copy. *)
Inductive legacyReachable : state -> Prop :=
| legacy_New (mem : gmap nat (list string)) :
    legacyReachable (mkState mem New)
| legacy_AddElement σ newElement deps :
    legacyReachable σ -> legacyReachable (snd (Legacy.AddElement σ newElement deps))
| legacy_write σ a i v :
    legacyReachable σ -> legacyReachable (callerWrite σ a i v).

(** A graph built with the earlier copy: the empty identifier first, then
    [B -> ""]. *)
Definition legacyGraph : state :=
  snd (Legacy.AddElement (snd (Legacy.AddElement fresh "" nilSlice)) "B" (Slice 7 0 1)).

(** The identifier holds no ['/'], the separator of [addedElements]. *)
Fixpoint noSlash (s : string) : bool :=
  match s with
  | EmptyString => true
  | String c s' => negb (Ascii.eqb c "/") && noSlash s'
  end.

(** ** Graphs that refute two claims as they are stated *)

(** [A -> Z, A]: the element depends on itself, behind a dependency that is
    not in the graph. *)
Definition selfCycleBehindMissing : state :=
  snd (AddElement (mkState {[ 1 := ["Z"; "A"] ]} New) "A" (Slice 1 0 2)).

(** [X -> Z, Y], [Y -> X]: two elements depend on each other, behind a
    dependency that is not in the graph. *)
Definition mutualCycleBehindMissing : state :=
  snd (AddElement
         (snd (AddElement (mkState {[ 1 := ["Z"; "Y"]; 2 := ["X"] ]} New) "X" (Slice 1 0 2)))
         "Y" (Slice 2 0 1)).

(** [A], [B -> A], where the caller still holds the array behind the
    dependencies of [B]. *)
Definition sharedGraph : state :=
  snd (AddElement (snd (AddElement (mkState {[ 1 := ["A"] ]} New) "A" nilSlice))
         "B" (Slice 1 0 1)).

(** * Proofs *)

(** ** Facts about the helpers *)

Lemma IsElementInStringSlice_spec (l : list string) (x : string) :
  IsElementInStringSlice l x = true <-> x ∈ l.
Proof.
  induction l as [|v l IH]; simpl.
  - split; [discriminate | intros H; inversion H].
  - destruct (String.eqb_spec v x) as [->|Hne].
    + split; [intros _; left | reflexivity].
    + rewrite IH, elem_of_cons. split; [tauto | intros [E|H]; [congruence | exact H]].
Qed.

Lemma IsElementInStringSlice_false (l : list string) (x : string) :
  IsElementInStringSlice l x = false <-> x ∉ l.
Proof.
  rewrite <- IsElementInStringSlice_spec.
  destruct (IsElementInStringSlice l x); split; congruence.
Qed.

Lemma IndexInStringSlice_from_spec (l : list string) (x : string) (i : Z) :
  (0 <= i)%Z ->
  (x ∈ l -> (i <= IndexInStringSlice_from i l x)%Z) /\
  (x ∉ l -> IndexInStringSlice_from i l x = (-1)%Z).
Proof.
  revert i. induction l as [|v l IH]; intros i Hi; simpl.
  - split; [intros H; inversion H | reflexivity].
  - destruct (String.eqb_spec v x) as [->|Hne].
    + split; [lia | intros H; exfalso; apply H; left].
    + destruct (IH (i + 1)%Z ltac:(lia)) as [IH1 IH2].
      rewrite elem_of_cons. split.
      * intros [E|H]; [congruence | specialize (IH1 H); lia].
      * intros H. apply IH2. tauto.
Qed.

Lemma IndexInStringSlice_spec (l : list string) (x : string) :
  (IndexInStringSlice l x =? -1)%Z = true <-> x ∉ l.
Proof.
  unfold IndexInStringSlice. rewrite Z.eqb_eq.
  destruct (IndexInStringSlice_from_spec l x 0 ltac:(lia)) as [H1 H2].
  split; [|exact H2].
  intros E Hin. specialize (H1 Hin). lia.
Qed.

Lemma IndexInStringSlice_found (l : list string) (x : string) :
  (IndexInStringSlice l x =? -1)%Z = false <-> x ∈ l.
Proof.
  destruct (IndexInStringSlice l x =? -1)%Z eqn:E.
  - apply IndexInStringSlice_spec in E. split; [discriminate | tauto].
  - split; [intros _ | reflexivity].
    destruct (decide (x ∈ l)) as [H|H]; [exact H|].
    apply IndexInStringSlice_spec in H. congruence.
Qed.

Lemma RemoveFromStringSlice_absent (l : list string) (x : string) :
  x ∉ l -> RemoveFromStringSlice l x = l.
Proof.
  induction l as [|v l IH]; simpl; [reflexivity|].
  rewrite not_elem_of_cons. intros [Hne H].
  destruct (String.eqb_spec v x) as [->|_]; [congruence|].
  by rewrite IH.
Qed.

Lemma RemoveFromStringSlice_perm (l : list string) (x : string) :
  x ∈ l -> l ≡ₚ x :: RemoveFromStringSlice l x.
Proof.
  induction l as [|v l IH]; simpl; [intros H; inversion H|].
  destruct (String.eqb_spec v x) as [->|Hne]; [reflexivity|].
  rewrite elem_of_cons. intros [E|H]; [congruence|].
  rewrite (IH H) at 1. apply Permutation_swap.
Qed.

Lemma RemoveFromStringSlice_length (l : list string) (x : string) :
  x ∈ l -> length l = S (length (RemoveFromStringSlice l x)).
Proof. intros H. by rewrite (RemoveFromStringSlice_perm l x H) at 1. Qed.

(** On a list without repetition, removing the first occurrence removes
    every occurrence: the helper can be read either way. *)
Lemma RemoveFromStringSlice_filter (l : list string) (x : string) :
  NoDup l -> RemoveFromStringSlice l x = filter (fun y => y ≠ x) l.
Proof.
  induction 1 as [|v l Hv Hl IH]; simpl; [reflexivity|].
  destruct (String.eqb_spec v x) as [->|Hne].
  - rewrite filter_cons_False by tauto.
    rewrite <- IH. symmetry. by apply RemoveFromStringSlice_absent.
  - rewrite filter_cons_True by done. by rewrite IH.
Qed.

Lemma elem_of_RemoveFromStringSlice (l : list string) (x y : string) :
  NoDup l -> y ∈ RemoveFromStringSlice l x <-> y ∈ l /\ y ≠ x.
Proof.
  intros Hl. rewrite (RemoveFromStringSlice_filter l x Hl).
  rewrite list_elem_of_filter. tauto.
Qed.

(** ** Facts about [strings.Contains] *)

Lemma append_String (c : ascii) (a b : string) :
  String c a +:+ b = String c (a +:+ b).
Proof. reflexivity. Qed.

Lemma append_Empty (b : string) : "" +:+ b = b.
Proof. reflexivity. Qed.

Lemma prefix_app (a b : string) : String.prefix a (a +:+ b) = true.
Proof.
  induction a as [|c a IH].
  - rewrite append_Empty. by destruct b.
  - rewrite append_String. simpl.
    destruct (Ascii.ascii_dec c c); [exact IH | congruence].
Qed.

Lemma Contains_app_r (a s x : string) :
  Contains s x = true -> Contains (a +:+ s) x = true.
Proof.
  intros H. induction a as [|c a IH]; [exact H|].
  rewrite append_String. cbn [Contains]. rewrite IH.
  by destruct (String.prefix x (String c (a +:+ s))).
Qed.

Lemma Contains_prefix (x b : string) : Contains (x +:+ b) x = true.
Proof.
  destruct (x +:+ b) eqn:E; cbn [Contains]; rewrite <- E, prefix_app; reflexivity.
Qed.

Lemma Contains_middle (a x b : string) : Contains (a +:+ x +:+ b) x = true.
Proof. apply Contains_app_r, Contains_prefix. Qed.

Lemma append_assoc (a b c : string) : (a +:+ b) +:+ c = a +:+ b +:+ c.
Proof.
  induction a as [|x a IH]; [reflexivity|].
  rewrite !append_String. by rewrite IH.
Qed.

Lemma append_Empty_r (a : string) : a +:+ "" = a.
Proof.
  induction a as [|x a IH]; [reflexivity|].
  rewrite append_String. by rewrite IH.
Qed.

Lemma addedText_app (l1 l2 : list string) :
  addedText (l1 ++ l2) = addedText l1 +:+ addedText l2.
Proof.
  induction l1 as [|v l1 IH]; simpl; [reflexivity|].
  by rewrite IH, !append_assoc.
Qed.

Lemma Contains_addedText (l : list string) (id : string) :
  id ∈ l -> Contains (addedText l) (id +:+ "/") = true.
Proof.
  induction l as [|v l IH]; [intros H; inversion H|].
  rewrite elem_of_cons. simpl. rewrite <- append_assoc. intros [->|H].
  - apply Contains_prefix.
  - apply Contains_app_r. by apply IH.
Qed.

(** ** The invariant holds on every reachable graph *)

Lemma wf_system (σ σ' : state) : system σ' = system σ -> wf σ -> wf σ'.
Proof. intros E [H1 H2 H3 H4]. split; rewrite E; assumption. Qed.

Lemma AddElement_failure (σ : state) (newElement : string) (deps : slice) :
  fst (AddElement σ newElement deps) ≠ None ->
  snd (AddElement σ newElement deps) = σ.
Proof.
  unfold AddElement.
  destruct (String.eqb newElement ""); [reflexivity|].
  destruct (hasEmptyDependency (contents σ deps)); [reflexivity|].
  destruct (Contains _ _); [reflexivity|].
  simpl. congruence.
Qed.

Lemma AddElement_wf (σ : state) (newElement : string) (deps : slice) :
  wf σ -> wf (snd (AddElement σ newElement deps)).
Proof.
  intros Hwf. unfold AddElement.
  destruct (String.eqb_spec newElement "") as [|Hne]; [exact Hwf|].
  destruct (hasEmptyDependency (contents σ deps)); [exact Hwf|].
  destruct (Contains _ _) eqn:HC; [exact Hwf|].
  destruct Hwf as [H1 H2 H3 H4].
  assert (Hfresh : newElement ∉ systemElements (system σ)).
  { intros Hin. apply Contains_addedText in Hin. rewrite <- H2 in Hin. congruence. }
  split; simpl.
  - apply NoDup_app. split; [exact H1|]. split.
    + intros x Hx Hx'. apply list_elem_of_singleton in Hx'. by subst.
    + apply NoDup_singleton.
  - rewrite addedText_app, H2. simpl. by rewrite append_Empty_r.
  - intros id. rewrite elem_of_app, list_elem_of_singleton, lookup_insert.
    case_decide as E.
    + split; [intros _; by eexists | intros _; right; by subst].
    + rewrite <- H3. split; [intros [H|H]; [exact H | congruence] | tauto].
  - rewrite elem_of_app, list_elem_of_singleton. intros [H|H]; [by apply H4 | congruence].
Qed.

Lemma reachable_wf (σ : state) : reachable σ -> wf σ.
Proof.
  induction 1 as [mem | σ id deps _ IH | σ a i v _ IH].
  - split; simpl.
    + apply NoDup_nil_2.
    + reflexivity.
    + intros id. rewrite lookup_empty. split; [intros H; inversion H | intros [x Hx]; discriminate].
    + intros H; inversion H.
  - by apply AddElement_wf.
  - by apply (wf_system σ).
Qed.

(** ** Dropping the history gives the code *)

Lemma erase_rangeDependencies visit visitT e :
  (forall io d els σ, erase (visitT io d els σ) = visit io d els σ) ->
  forall deps io els σ,
    erase (rangeDependenciesT visitT e deps io els σ) = rangeDependencies visit deps io els σ.
Proof.
  intros Hv deps. induction deps as [|d rest IH]; intros io els σ; simpl; [reflexivity|].
  destruct (IsElementInStringSlice io d).
  - rewrite <- IH. by destruct (rangeDependenciesT visitT e rest io els σ) as [[[? ?] ?]| |].
  - destruct (IndexInStringSlice els d =? -1)%Z; [reflexivity|].
    rewrite <- Hv.
    destruct (visitT io d els σ) as [[[[[[io' els'] [err|]] descr] σ'] log]| |];
      simpl; try reflexivity.
    rewrite <- IH.
    by destruct (rangeDependenciesT visitT e rest io' els' σ') as [[[? ?] ?]| |].
Qed.

Lemma erase_addToInitOrder fuel io e wl els σ :
  erase (addToInitOrderT fuel io e wl els σ) = addToInitOrder fuel io e wl els σ.
Proof.
  revert io e wl els σ. induction fuel as [|fuel IH]; intros io e wl els σ; simpl;
    [reflexivity|].
  destruct (IsElementInStringSlice wl e); [reflexivity|].
  destruct (length (dependenciesOf σ e) =? 0)%nat; [reflexivity|].
  rewrite <- (erase_rangeDependencies _
    (fun io0 d els0 σ0 => addToInitOrderT fuel io0 d (wl ++ [e]) els0 σ0) e)
    by (intros; apply IH).
  by destruct (rangeDependenciesT _ _ _ _ _ _)
    as [[[[[[io' els'] [err|]] descr] σ'] log]| |].
Qed.

Lemma erase_InitOrder_loop fuel depth io els wl σ :
  erase (InitOrder_loopT fuel depth io els wl σ) = InitOrder_loop fuel depth io els wl σ.
Proof.
  revert io els σ. induction fuel as [|fuel IH]; intros io els σ; simpl; [reflexivity|].
  destruct els as [|e els']; [reflexivity|].
  rewrite <- erase_addToInitOrder.
  destruct (addToInitOrderT depth io e wl (e :: els') σ)
    as [[[[[[io1 els1] [err|]] descr] σ1] log]| |]; simpl; try reflexivity.
  rewrite <- IH.
  by destruct (InitOrder_loopT fuel depth io1 els1 wl σ1) as [[[? ?] ?]| |].
Qed.

Lemma erase_InitOrder σ : erase (InitOrderT σ) = InitOrder σ.
Proof. apply erase_InitOrder_loop. Qed.

Lemma InitOrderT_Done σ R σ' log :
  InitOrderT σ = Done (R, σ', log) -> InitOrder σ = Done (R, σ').
Proof. intros H. by rewrite <- erase_InitOrder, H. Qed.

Lemma InitOrder_Done σ R σ' :
  InitOrder σ = Done (R, σ') -> exists log, InitOrderT σ = Done (R, σ', log).
Proof.
  rewrite <- erase_InitOrder.
  destruct (InitOrderT σ) as [[[R0 σ0] log]| |]; simpl; intros H; try discriminate.
  injection H as -> ->. by exists log.
Qed.

(** ** What the history says about the result

    The store is never written, and an event at which the code's own test
    fails is the reason of the failure that is returned. *)

Lemma agrees_nil r : agrees r [].
Proof. intros ev err descr H. inversion H. Qed.

Lemma agrees_cons r ev log :
  (forall err descr, verdict ev = Some (err, descr) -> r = ([], [], Some err, descr)) ->
  agrees r log -> agrees r (ev :: log).
Proof.
  intros H1 H2 ev' err descr Hin Hv. apply elem_of_cons in Hin as [->|Hin]; eauto.
Qed.

Lemma agrees_success_inv io els descr log r' :
  agrees (io, els, None, descr) log -> agrees r' log.
Proof. intros H ev err d Hin Hv. specialize (H ev err d Hin Hv). discriminate. Qed.

Lemma agrees_app r log1 log2 : agrees r log1 -> agrees r log2 -> agrees r (log1 ++ log2).
Proof. intros H1 H2 ev err descr Hin Hv. apply elem_of_app in Hin as [Hin|Hin]; eauto. Qed.

Lemma rangeDependenciesT_agrees visit e :
  (forall io d els σ r σ' log,
      visit io d els σ = Done (r, σ', log) -> σ' = σ /\ agrees r log) ->
  forall deps io els σ r σ' log,
    rangeDependenciesT visit e deps io els σ = Done (r, σ', log) -> σ' = σ /\ agrees r log.
Proof.
  intros Hv deps. induction deps as [|d rest IH]; intros io els σ r σ' log; simpl.
  - intros [= <- <- <-]. split; [reflexivity | apply agrees_nil].
  - destruct (IsElementInStringSlice io d) eqn:Hio.
    + destruct (rangeDependenciesT visit e rest io els σ) as [[[r0 σ0] log0]| |] eqn:E;
        intros [= <- <- <-].
      destruct (IH _ _ _ _ _ _ E) as [-> Hag]. split; [reflexivity|].
      apply agrees_cons; [|exact Hag]. simpl. rewrite Hio. discriminate.
    + destruct (IndexInStringSlice els d =? -1)%Z eqn:Hels.
      * intros [= <- <- <-]. split; [reflexivity|].
        apply agrees_cons; [|apply agrees_nil].
        simpl. rewrite Hio, Hels. by intros err descr [= <- <-].
      * destruct (visit io d els σ) as [[[[[[io1 els1] [err1|]] descr1] σ1] log1]| |] eqn:E;
          try discriminate.
        -- intros [= <- <- <-]. destruct (Hv _ _ _ _ _ _ _ E) as [-> Hag].
           split; [reflexivity|]. apply agrees_cons.
           ++ simpl. rewrite Hio, Hels. discriminate.
           ++ intros ev err descr Hin Hver. specialize (Hag ev err descr Hin Hver).
              injection Hag as _ _ -> ->. reflexivity.
        -- destruct (rangeDependenciesT visit e rest io1 els1 σ1) as [[[r0 σ0] log0]| |] eqn:E2;
             intros [= <- <- <-].
           destruct (Hv _ _ _ _ _ _ _ E) as [-> Hag].
           destruct (IH _ _ _ _ _ _ E2) as [-> Hag2]. split; [reflexivity|].
           apply agrees_cons.
           ++ simpl. rewrite Hio, Hels. discriminate.
           ++ apply agrees_app; [|exact Hag2]. by eapply agrees_success_inv.
Qed.

Lemma addToInitOrderT_agrees fuel io e wl els σ r σ' log :
  addToInitOrderT fuel io e wl els σ = Done (r, σ', log) -> σ' = σ /\ agrees r log.
Proof.
  revert io e wl els σ r σ' log.
  induction fuel as [|fuel IH]; intros io e wl els σ r σ' log; simpl; [discriminate|].
  destruct (IsElementInStringSlice wl e) eqn:Hwl.
  - intros [= <- <- <-]. split; [reflexivity|].
    apply agrees_cons; [|apply agrees_nil]. simpl. rewrite Hwl. by intros err descr [= <- <-].
  - assert (Hhere : forall (r0 : results) err descr,
               verdict (Enter io e wl els) = Some (err, descr) -> r0 = ([], [], Some err, descr)).
    { intros r0 err descr. simpl. rewrite Hwl. discriminate. }
    destruct (length (dependenciesOf σ e) =? 0)%nat.
    + intros [= <- <- <-]. split; [reflexivity|].
      apply agrees_cons; [apply Hhere | apply agrees_nil].
    + destruct (rangeDependenciesT _ _ _ _ _ _)
        as [[[[[[io1 els1] [err1|]] descr1] σ1] log1]| |] eqn:E; try discriminate;
        intros [= <- <- <-];
        apply rangeDependenciesT_agrees in E; try (intros; by eapply IH);
        destruct E as [-> Hag]; (split; [reflexivity|]);
        (apply agrees_cons; [apply Hhere|]).
      * exact Hag.
      * by eapply agrees_success_inv.
Qed.

Lemma InitOrder_loopT_agrees fuel depth io els wl σ R σ' log :
  InitOrder_loopT fuel depth io els wl σ = Done (R, σ', log) ->
  σ' = σ /\ agreesTop R log.
Proof.
  revert io els σ R σ' log.
  induction fuel as [|fuel IH]; intros io els σ R σ' log; simpl; [discriminate|].
  destruct els as [|e els'].
  - intros [= <- <- <-]. split; [reflexivity|]. intros ev err descr H. inversion H.
  - destruct (addToInitOrderT depth io e wl (e :: els') σ)
      as [[[[[[io1 els1] [err1|]] descr1] σ1] log1]| |] eqn:E; try discriminate.
    + intros [= <- <- <-]. apply addToInitOrderT_agrees in E as [-> Hag].
      split; [reflexivity|]. intros ev err descr Hin Hv.
      specialize (Hag ev err descr Hin Hv). by injection Hag as _ _ -> ->.
    + destruct (InitOrder_loopT fuel depth io1 els1 wl σ1) as [[[R0 σ0] log0]| |] eqn:E2;
        intros [= <- <- <-].
      apply addToInitOrderT_agrees in E as [-> Hag].
      apply IH in E2 as [-> Hag2]. split; [reflexivity|].
      intros ev err descr Hin Hv. apply elem_of_app in Hin as [Hin|Hin].
      * specialize (Hag ev err descr Hin Hv). discriminate.
      * by eapply Hag2.
Qed.

Lemma InitOrderT_agrees σ R σ' log :
  InitOrderT σ = Done (R, σ', log) -> σ' = σ /\ agreesTop R log.
Proof. apply InitOrder_loopT_agrees. Qed.

(** Conversely, a failure that is returned has its reason in the history. *)
Lemma rangeDependenciesT_cause visit e :
  (forall io d els σ io1 els1 err descr σ' log,
      visit io d els σ = Done ((io1, els1, Some err, descr), σ', log) ->
      exists ev, ev ∈ log /\ verdict ev = Some (err, descr)) ->
  forall deps io els σ io1 els1 err descr σ' log,
    rangeDependenciesT visit e deps io els σ = Done ((io1, els1, Some err, descr), σ', log) ->
    exists ev, ev ∈ log /\ verdict ev = Some (err, descr).
Proof.
  intros Hv deps.
  induction deps as [|d rest IH]; intros io els σ io1 els1 err descr σ' log; simpl;
    [discriminate|].
  destruct (IsElementInStringSlice io d) eqn:Hio.
  - destruct (rangeDependenciesT visit e rest io els σ) as [[[r0 σ0] log0]| |] eqn:E;
      intros [= -> <- <-].
    destruct (IH _ _ _ _ _ _ _ _ _ E) as (ev & Hin & Hver).
    exists ev. split; [by right | exact Hver].
  - destruct (IndexInStringSlice els d =? -1)%Z eqn:Hels.
    + intros [= <- <- <- <- <- <-]. eexists. split; [left|].
      simpl. by rewrite Hio, Hels.
    + destruct (visit io d els σ) as [[[[[[io2 els2] [err2|]] descr2] σ2] log2]| |] eqn:E;
        try discriminate.
      * intros [= <- <- <- <- <- <-].
        destruct (Hv _ _ _ _ _ _ _ _ _ _ E) as (ev & Hin & Hver).
        exists ev. split; [by right | exact Hver].
      * destruct (rangeDependenciesT visit e rest io2 els2 σ2)
          as [[[r0 σ0] log0]| |] eqn:E2; intros [= -> <- <-].
        destruct (IH _ _ _ _ _ _ _ _ _ E2) as (ev & Hin & Hver).
        exists ev. split; [|exact Hver]. right. apply elem_of_app. by right.
Qed.

Lemma addToInitOrderT_cause fuel io e wl els σ io1 els1 err descr σ' log :
  addToInitOrderT fuel io e wl els σ = Done ((io1, els1, Some err, descr), σ', log) ->
  exists ev, ev ∈ log /\ verdict ev = Some (err, descr).
Proof.
  revert io e wl els σ io1 els1 err descr σ' log.
  induction fuel as [|fuel IH]; intros io e wl els σ io1 els1 err descr σ' log; simpl;
    [discriminate|].
  destruct (IsElementInStringSlice wl e) eqn:Hwl.
  - intros [= <- <- <- <- <- <-]. eexists. split; [left|]. simpl. by rewrite Hwl.
  - destruct (length (dependenciesOf σ e) =? 0)%nat; [discriminate|].
    destruct (rangeDependenciesT _ _ _ _ _ _)
      as [[[[[[io2 els2] [err2|]] descr2] σ2] log2]| |] eqn:E; try discriminate.
    intros [= <- <- <- <- <- <-].
    apply rangeDependenciesT_cause in E as (ev & Hin & Hver); [|intros; by eapply IH].
    exists ev. split; [by right | exact Hver].
Qed.

Lemma InitOrder_loopT_cause fuel depth io els wl σ order err descr σ' log :
  InitOrder_loopT fuel depth io els wl σ = Done ((order, Some err, descr), σ', log) ->
  order = [] /\ exists ev, ev ∈ log /\ verdict ev = Some (err, descr).
Proof.
  revert io els σ log.
  induction fuel as [|fuel IH]; intros io els σ log; simpl; [discriminate|].
  destruct els as [|e els']; [discriminate|].
  destruct (addToInitOrderT depth io e wl (e :: els') σ)
    as [[[[[[io1 els1] [err1|]] descr1] σ1] log1]| |] eqn:E; try discriminate.
  - intros [= <- <- <- <- <-]. split; [reflexivity|].
    by apply addToInitOrderT_cause in E.
  - destruct (InitOrder_loopT fuel depth io1 els1 wl σ1) as [[[R0 σ0] log0]| |] eqn:E2;
      intros [= -> <- <-].
    destruct (IH _ _ _ _ E2) as (Hnil & ev & Hin & Hver).
    split; [exact Hnil|]. exists ev. split; [|exact Hver]. apply elem_of_app. by right.
Qed.

(** [InitOrder] leaves the state as it found it. *)
Lemma InitOrder_frame σ R σ' : InitOrder σ = Done (R, σ') -> σ' = σ.
Proof.
  intros H. apply InitOrder_Done in H as [log H].
  by apply InitOrderT_agrees in H as [-> _].
Qed.

(** ** The invariant of the traversal *)

Lemma depsFirst_nil σ : depsFirst σ [].
Proof. intros j x H. by rewrite lookup_nil in H. Qed.

Lemma depsFirst_snoc σ io e :
  depsFirst σ io -> (forall d, d ∈ dependenciesOf σ e -> d ∈ io) ->
  depsFirst σ (io ++ [e]).
Proof.
  intros Hio He j x Hj d Hd.
  destruct (decide (j < length io)) as [Hlt|Hge].
  - rewrite lookup_app_l in Hj by exact Hlt.
    destruct (Hio j x Hj d Hd) as (i & Hi & Hi').
    exists i. split; [exact Hi|]. rewrite lookup_app_l by lia. exact Hi'.
  - rewrite lookup_app_r in Hj by lia.
    apply list_lookup_singleton_Some in Hj as [Hj ->].
    apply He, list_elem_of_lookup in Hd as [i Hi].
    pose proof (lookup_lt_Some _ _ _ Hi).
    exists i. split; [lia|]. by rewrite lookup_app_l.
Qed.

Lemma length_zero_nil {A} (l : list A) : (length l =? 0)%nat = true -> l = [].
Proof. destruct l; [reflexivity | discriminate]. Qed.

Lemma waiting_bound (wl els : list string) :
  NoDup wl -> (forall w, w ∈ wl -> w ∈ els) -> length wl <= length els.
Proof. intros H1 H2. apply submseteq_length, NoDup_submseteq; assumption. Qed.

Lemma remove_splits (G io els : list string) (e : string) :
  io ++ els ≡ₚ G -> e ∈ els -> (io ++ [e]) ++ RemoveFromStringSlice els e ≡ₚ G.
Proof.
  intros HG He. rewrite <- HG, <- app_assoc. simpl.
  by rewrite <- (RemoveFromStringSlice_perm els e He).
Qed.

Lemma remove_keeps (els : list string) (e w : string) :
  w ∈ els -> w ≠ e -> w ∈ RemoveFromStringSlice els e.
Proof.
  intros Hw Hne. destruct (decide (e ∈ els)) as [He|He].
  - rewrite (RemoveFromStringSlice_perm els e He) in Hw.
    apply elem_of_cons in Hw as [->|Hw]; [congruence | exact Hw].
  - by rewrite RemoveFromStringSlice_absent.
Qed.

Lemma split_shrinks (G io els mid els' : list string) :
  io ++ els ≡ₚ G -> (io ++ mid) ++ els' ≡ₚ G -> length els' + length mid = length els.
Proof.
  intros H1 H2. apply Permutation_length in H1, H2.
  rewrite !length_app in *. lia.
Qed.

Section TraversalInvariant.

Variable σ : state.
Let G := systemElements (system σ).

Lemma rangeDependenciesT_ok visit (e : string) (wl : list string) (bound : nat) :
  e ∈ G ->
  (forall io d els,
      io ++ els ≡ₚ G -> (forall w, w ∈ wl -> w ∈ els) -> d ∈ els -> depsFirst σ io ->
      length els <= bound ->
      exists r log, visit io d els σ = Done (r, σ, log) /\
                    Forall (eventInv σ) log /\ post σ io d wl r) ->
  forall deps io els,
    (forall d, d ∈ deps -> d ∈ dependenciesOf σ e) ->
    io ++ els ≡ₚ G -> (forall w, w ∈ wl -> w ∈ els) -> depsFirst σ io ->
    length els <= bound ->
    exists r log, rangeDependenciesT visit e deps io els σ = Done (r, σ, log) /\
                  Forall (eventInv σ) log /\ postLoop σ io deps wl r.
Proof.
  intros He Hvisit deps.
  induction deps as [|d rest IH]; intros io els Hsub HG Hwl Hdf Hlen; simpl.
  - eexists _, _. split; [reflexivity|]. split; [constructor|].
    simpl. repeat split; try assumption.
    + exists []. by rewrite app_nil_r.
    + intros d Hd. inversion Hd.
  - assert (Hhere : eventInv σ (Examine e io d els)).
    { split; [exact He|]. split; [apply Hsub; left | exact HG]. }
    assert (Hsub' : forall d', d' ∈ rest -> d' ∈ dependenciesOf σ e).
    { intros d' Hd'. apply Hsub. by right. }
    destruct (IsElementInStringSlice io d) eqn:Hio.
    + destruct (IH io els Hsub' HG Hwl Hdf Hlen) as (r & log & -> & Hlog & Hpost).
      eexists _, _. split; [reflexivity|]. split; [by constructor|].
      destruct r as [[[io' els'] [err|]] descr]; [exact I|].
      destruct Hpost as (H1 & H2 & H3 & [mid ->] & H5).
      repeat split; try assumption; [by exists mid|].
      intros d' Hd'. apply elem_of_cons in Hd' as [->|Hd']; [|by apply H5].
      apply elem_of_app. left. by apply IsElementInStringSlice_spec.
    + destruct (IndexInStringSlice els d =? -1)%Z eqn:Hels.
      * eexists _, _. split; [reflexivity|]. split; [|exact I].
        constructor; [exact Hhere | constructor].
      * apply IndexInStringSlice_found in Hels.
        destruct (Hvisit io d els HG Hwl Hels Hdf Hlen) as (r1 & log1 & -> & Hlog1 & Hpost1).
        destruct r1 as [[[io1 els1] [err1|]] descr1].
        { eexists _, _. split; [reflexivity|]. split; [|exact I]. by constructor. }
        destruct Hpost1 as (H1 & H2 & H3 & [mid ->]).
        assert (Hlen1 : length els1 <= bound).
        { pose proof (split_shrinks G io els (mid ++ [d]) els1 HG H1). lia. }
        destruct (IH _ els1 Hsub' H1 H2 H3 Hlen1) as (r & log & -> & Hlog & Hpost).
        eexists _, _. split; [reflexivity|]. split.
        { constructor; [exact Hhere|]. apply Forall_app. by split. }
        destruct r as [[[io' els'] [err|]] descr]; [exact I|].
        destruct Hpost as (H1' & H2' & H3' & [mid' ->] & H5').
        repeat split; try assumption.
        -- exists ((mid ++ [d]) ++ mid'). by rewrite !app_assoc.
        -- intros d' Hd'. apply elem_of_cons in Hd' as [->|Hd']; [|by apply H5'].
           rewrite !elem_of_app, list_elem_of_singleton. tauto.
Qed.

Lemma addToInitOrderT_ok fuel : forall io e wl els,
  io ++ els ≡ₚ G -> (forall w, w ∈ wl -> w ∈ els) -> NoDup wl -> e ∈ els ->
  depsFirst σ io -> length els < fuel + length wl ->
  exists r log, addToInitOrderT fuel io e wl els σ = Done (r, σ, log) /\
                Forall (eventInv σ) log /\ post σ io e wl r.
Proof.
  induction fuel as [|fuel IH]; intros io e wl els HG Hwl Hnd He Hdf Hlen.
  { pose proof (waiting_bound wl els Hnd Hwl). lia. }
  assert (Hhere : eventInv σ (Enter io e wl els)) by (split; assumption).
  simpl. destruct (IsElementInStringSlice wl e) eqn:Hin.
  { eexists _, _. split; [reflexivity|]. split; [|exact I]. by repeat constructor. }
  apply IsElementInStringSlice_false in Hin.
  assert (Hkeep : forall els', (forall w, w ∈ wl ++ [e] -> w ∈ els') ->
                    forall w, w ∈ wl -> w ∈ RemoveFromStringSlice els' e).
  { intros els' H w Hw. apply remove_keeps; [|by intros ->].
    apply H, elem_of_app. by left. }
  destruct (length (dependenciesOf σ e) =? 0)%nat eqn:Hdeps.
  { apply length_zero_nil in Hdeps.
    eexists _, _. split; [reflexivity|]. split; [by repeat constructor|].
    simpl. split; [by apply remove_splits|]. split.
    - intros w Hw. apply remove_keeps; [by apply Hwl | by intros ->].
    - split; [|by exists []].
      apply depsFirst_snoc; [exact Hdf|]. rewrite Hdeps. intros d Hd. inversion Hd. }
  assert (Hwl' : forall w, w ∈ wl ++ [e] -> w ∈ els).
  { intros w Hw. apply elem_of_app in Hw as [Hw|Hw]; [by apply Hwl|].
    by apply list_elem_of_singleton in Hw as ->. }
  assert (Hnd' : NoDup (wl ++ [e])).
  { apply NoDup_app. split; [exact Hnd|]. split; [|apply NoDup_singleton].
    intros x Hx Hx'. apply list_elem_of_singleton in Hx'. by subst. }
  assert (HeG : e ∈ G) by (rewrite <- HG; apply elem_of_app; by right).
  destruct (rangeDependenciesT_ok
              (fun io0 d els0 σ0 => addToInitOrderT fuel io0 d (wl ++ [e]) els0 σ0)
              e (wl ++ [e]) (length els) HeG) with (deps := dependenciesOf σ e)
              (io := io) (els := els)
    as (r & log & -> & Hlog & Hpost); try assumption; try lia; try tauto.
  { intros io0 d els0 HG0 Hwl0 Hd0 Hdf0 Hlen0.
    apply IH; try assumption. rewrite length_app. simpl. lia. }
  destruct r as [[[io' els'] [err|]] descr].
  { eexists _, _. split; [reflexivity|]. split; [by constructor | exact I]. }
  destruct Hpost as (H1 & H2 & H3 & [mid ->] & H5).
  eexists _, _. split; [reflexivity|]. split; [by constructor|].
  simpl. split.
  { apply remove_splits; [exact H1|]. apply H2, elem_of_app. right. by left. }
  split; [by apply Hkeep|]. split; [by apply depsFirst_snoc|].
  exists mid. by rewrite app_assoc.
Qed.

Lemma InitOrder_loopT_ok depth fuel : forall io els,
  io ++ els ≡ₚ G -> depsFirst σ io -> length els < fuel -> length els < depth ->
  exists R log, InitOrder_loopT fuel depth io els [] σ = Done (R, σ, log) /\
                Forall (eventInv σ) log /\
                match R with
                | (order, None, _) => order ≡ₚ G /\ depsFirst σ order
                | _ => True
                end.
Proof.
  induction fuel as [|fuel IH]; intros io els HG Hdf Hlen Hdepth; [lia|].
  simpl. destruct els as [|e els'].
  { eexists _, _. split; [reflexivity|]. split; [constructor|].
    rewrite app_nil_r in HG. by split. }
  destruct (addToInitOrderT_ok depth io e [] (e :: els'))
    as (r & log & -> & Hlog & Hpost); try assumption.
  { intros w Hw. inversion Hw. }
  { constructor. }
  { by left. }
  { simpl in *. lia. }
  destruct r as [[[io1 els1] [err|]] descr].
  { eexists _, _. split; [reflexivity|]. by split. }
  destruct Hpost as (H1 & _ & H3 & [mid ->]).
  pose proof (split_shrinks G io (e :: els') (mid ++ [e]) els1 HG H1) as Hs.
  rewrite length_app in Hs. simpl in Hs, Hlen, Hdepth.
  destruct (IH _ els1 H1 H3) as (R & log' & -> & Hlog' & HR); try lia.
  eexists _, _. split; [reflexivity|]. split; [|exact HR].
  apply Forall_app. by split.
Qed.

Lemma InitOrderT_ok :
  exists R log, InitOrderT σ = Done (R, σ, log) /\
                Forall (eventInv σ) log /\
                match R with
                | (order, None, _) => order ≡ₚ G /\ depsFirst σ order
                | _ => True
                end.
Proof.
  unfold InitOrderT.
  apply InitOrder_loopT_ok; [reflexivity | apply depsFirst_nil | fold G; lia..].
Qed.

End TraversalInvariant.

(** [InitOrder] returns on every state, and returns the state it was given. *)
Lemma InitOrder_total σ : exists R, InitOrder σ = Done (R, σ).
Proof.
  destruct (InitOrderT_ok σ) as (R & log & H & _).
  exists R. by apply InitOrderT_Done in H.
Qed.

(** ** The result does not depend on how the graph is stored *)

Lemma addToInitOrder_frame fuel io e wl els σ r σ' :
  addToInitOrder fuel io e wl els σ = Done (r, σ') -> σ' = σ.
Proof.
  rewrite <- erase_addToInitOrder.
  destruct (addToInitOrderT fuel io e wl els σ) as [[[r0 σ0] log]| |] eqn:E;
    simpl; intros H; try discriminate.
  injection H as -> ->. by apply addToInitOrderT_agrees in E as [-> _].
Qed.

Section SameGraph.

Variables σ1 σ2 : state.
Hypothesis same_deps : forall e, dependenciesOf σ1 e = dependenciesOf σ2 e.

Lemma rangeDependencies_ext visit1 visit2 :
  (forall io d els, result_of (visit1 io d els σ1) = result_of (visit2 io d els σ2)) ->
  (forall io d els r σ', visit1 io d els σ1 = Done (r, σ') -> σ' = σ1) ->
  (forall io d els r σ', visit2 io d els σ2 = Done (r, σ') -> σ' = σ2) ->
  forall deps io els,
    result_of (rangeDependencies visit1 deps io els σ1) =
    result_of (rangeDependencies visit2 deps io els σ2).
Proof.
  intros Hv Hf1 Hf2 deps. induction deps as [|d rest IH]; intros io els; simpl;
    [reflexivity|].
  destruct (IsElementInStringSlice io d); [apply IH|].
  destruct (IndexInStringSlice els d =? -1)%Z; [reflexivity|].
  specialize (Hv io d els). specialize (Hf1 io d els). specialize (Hf2 io d els).
  destruct (visit1 io d els σ1) as [[r1 s1]| |], (visit2 io d els σ2) as [[r2 s2]| |];
    simpl in Hv; try discriminate; try exact Hv.
  injection Hv as <-.
  rewrite (Hf1 _ _ eq_refl), (Hf2 _ _ eq_refl).
  destruct r1 as [[[io1 els1] [err|]] descr]; [reflexivity | apply IH].
Qed.

Lemma addToInitOrder_ext fuel : forall io e wl els,
  result_of (addToInitOrder fuel io e wl els σ1) =
  result_of (addToInitOrder fuel io e wl els σ2).
Proof.
  induction fuel as [|fuel IH]; intros io e wl els; simpl; [reflexivity|].
  destruct (IsElementInStringSlice wl e); [reflexivity|].
  rewrite <- same_deps.
  destruct (length (dependenciesOf σ1 e) =? 0)%nat; [reflexivity|].
  pose proof (rangeDependencies_ext
    (fun io0 d els0 s => addToInitOrder fuel io0 d (wl ++ [e]) els0 s)
    (fun io0 d els0 s => addToInitOrder fuel io0 d (wl ++ [e]) els0 s)
    ltac:(intros; apply IH)
    ltac:(intros ? ? ? ? ?; apply addToInitOrder_frame)
    ltac:(intros ? ? ? ? ?; apply addToInitOrder_frame)
    (dependenciesOf σ1 e) io els) as H.
  destruct (rangeDependencies _ (dependenciesOf σ1 e) io els σ1) as [[r1 s1]| |],
           (rangeDependencies _ (dependenciesOf σ1 e) io els σ2) as [[r2 s2]| |];
    simpl in H; try discriminate; try exact H.
  injection H as <-. by destruct r1 as [[[io1 els1] [err|]] descr].
Qed.

Lemma InitOrder_loop_ext fuel depth wl : forall io els,
  result_of (InitOrder_loop fuel depth io els wl σ1) =
  result_of (InitOrder_loop fuel depth io els wl σ2).
Proof.
  induction fuel as [|fuel IH]; intros io els; simpl; [reflexivity|].
  destruct els as [|e els']; [reflexivity|].
  pose proof (addToInitOrder_ext depth io e wl (e :: els')) as H.
  destruct (addToInitOrder depth io e wl (e :: els') σ1) as [[r1 s1]| |] eqn:E1,
           (addToInitOrder depth io e wl (e :: els') σ2) as [[r2 s2]| |] eqn:E2;
    simpl in H |- *; try discriminate; try reflexivity;
    try (injection H as ->; reflexivity).
  injection H as <-.
  apply addToInitOrder_frame in E1 as ->. apply addToInitOrder_frame in E2 as ->.
  destruct r1 as [[[io1 els1] [err|]] descr]; [reflexivity | apply IH].
Qed.

Lemma InitOrder_ext :
  systemElements (system σ1) = systemElements (system σ2) ->
  result_of (InitOrder σ1) = result_of (InitOrder σ2).
Proof. intros E. unfold InitOrder. rewrite <- E. apply InitOrder_loop_ext. Qed.

End SameGraph.

(** ** Facts about [AddElement] *)

Lemma hasEmptyDependency_spec (l : list string) :
  hasEmptyDependency l = true <-> "" ∈ l.
Proof.
  induction l as [|v l IH]; simpl.
  - split; [discriminate | intros H; inversion H].
  - destruct (String.eqb_spec v "") as [->|Hne].
    + split; [intros _; left | reflexivity].
    + rewrite IH, elem_of_cons. split; [tauto | intros [E|H]; [congruence | exact H]].
Qed.

(** Later copy: an empty identifier is refused and nothing is stored. *)
Lemma AddElement_empty_identifier σ deps :
  AddElement σ "" deps =
  (Some (errors_New "Empty string can not be used as ID of an element."), σ).
Proof. reflexivity. Qed.

(** Later copy: an empty dependency identifier is refused and nothing is stored. *)
Lemma AddElement_empty_dependency σ id deps :
  id ≠ "" -> "" ∈ contents σ deps ->
  AddElement σ id deps =
  (Some (errors_New "The ID of a dependency is an empty string."), σ).
Proof.
  intros Hid Hdeps. unfold AddElement.
  destruct (String.eqb_spec id ""); [congruence|].
  apply hasEmptyDependency_spec in Hdeps. by rewrite Hdeps.
Qed.

(** An identifier of the graph is never added a second time. *)
Lemma AddElement_present σ id deps :
  wf σ -> id ∈ systemElements (system σ) ->
  fst (AddElement σ id deps) ≠ None /\ snd (AddElement σ id deps) = σ /\
  (id ≠ "" -> "" ∉ contents σ deps -> fst (AddElement σ id deps) = Some ErrAlreadyAdded).
Proof.
  intros Hwf Hin.
  pose proof (Contains_addedText _ _ Hin) as HC. rewrite <- (wf_added _ Hwf) in HC.
  assert (H1 : fst (AddElement σ id deps) ≠ None).
  { unfold AddElement.
    destruct (String.eqb id ""); [discriminate|].
    destruct (hasEmptyDependency (contents σ deps)); [discriminate|].
    rewrite HC. discriminate. }
  split; [exact H1|]. split; [by apply AddElement_failure|].
  intros Hid Hdeps. unfold AddElement.
  destruct (String.eqb_spec id ""); [congruence|].
  destruct (hasEmptyDependency (contents σ deps)) eqn:E.
  - apply hasEmptyDependency_spec in E. contradiction.
  - by rewrite HC.
Qed.

Lemma AddElement_arrays σ id deps : arrays (snd (AddElement σ id deps)) = arrays σ.
Proof.
  unfold AddElement.
  destruct (String.eqb id ""); [reflexivity|].
  destruct (hasEmptyDependency (contents σ deps)); [reflexivity|].
  by destruct (Contains _ _).
Qed.

Lemma AddElement_success σ id deps :
  fst (AddElement σ id deps) = None ->
  system (snd (AddElement σ id deps)) =
  mkSystem (systemElements (system σ) ++ [id])
           (<[id := deps]> (dependencies (system σ)))
           (addedElements (system σ) +:+ id +:+ "/").
Proof.
  unfold AddElement.
  destruct (String.eqb id ""); [discriminate|].
  destruct (hasEmptyDependency (contents σ deps)); [discriminate|].
  by destruct (Contains _ _).
Qed.

Lemma contents_arrays σ σ' sl : arrays σ' = arrays σ -> contents σ' sl = contents σ sl.
Proof. intros E. unfold contents. by rewrite E. Qed.

(** No call of [AddElement] touches what is recorded for an identifier of
    the graph. *)
Lemma AddElement_keeps σ id sl id' deps :
  wf σ -> dependencies (system σ) !! id = Some sl ->
  dependencies (system (snd (AddElement σ id' deps))) !! id = Some sl.
Proof.
  intros Hwf Hsl.
  destruct (fst (AddElement σ id' deps)) as [err|] eqn:E.
  - rewrite AddElement_failure; [exact Hsl | congruence].
  - rewrite (AddElement_success _ _ _ E). simpl.
    destruct (decide (id' = id)) as [->|Hne]; [|by rewrite lookup_insert_ne].
    assert (Hin : id ∈ systemElements (system σ)) by (apply (wf_dom _ Hwf); eauto).
    destruct (AddElement_present σ id deps Hwf Hin) as [H _]. contradiction.
Qed.

Lemma prefix_inv (x s : string) :
  String.prefix x s = true -> exists b, s = x +:+ b.
Proof.
  revert s. induction x as [|c x IH]; intros s H.
  - by exists s.
  - destruct s as [|c' s]; simpl in H; [discriminate|].
    destruct (Ascii.ascii_dec c c') as [->|]; [|discriminate].
    destruct (IH s H) as [b ->]. by exists b.
Qed.

Lemma Contains_inv (s x : string) :
  Contains s x = true -> exists a b, s = a +:+ x +:+ b.
Proof.
  induction s as [|c s IH]; cbn [Contains].
  - destruct (String.prefix x "") eqn:E; [|discriminate].
    intros _. apply prefix_inv in E as [b ->]. by exists "", b.
  - destruct (String.prefix x (String c s)) eqn:E.
    + intros _. apply prefix_inv in E as [b ->]. by exists "", b.
    + intros H. destruct (IH H) as (a & b & ->). by exists (String c a), b.
Qed.

(** The substring test refuses more than it should: an identifier that
    ends an identifier of the graph is taken as already added, whether it
    is in the graph or not. *)
Lemma AddElement_suffix_rejected σ front id deps :
  wf σ -> (front +:+ id) ∈ systemElements (system σ) ->
  id ≠ "" -> "" ∉ contents σ deps ->
  fst (AddElement σ id deps) = Some ErrAlreadyAdded.
Proof.
  intros Hwf Hin Hid Hdeps.
  pose proof (Contains_addedText _ _ Hin) as HC. rewrite <- (wf_added _ Hwf) in HC.
  apply Contains_inv in HC as (a & b & HC).
  rewrite !(append_assoc front), <- (append_assoc a front) in HC.
  unfold AddElement.
  destruct (String.eqb_spec id ""); [congruence|].
  destruct (hasEmptyDependency (contents σ deps)) eqn:E.
  - apply hasEmptyDependency_spec in E. contradiction.
  - by rewrite HC, Contains_middle.
Qed.

Lemma packageStep_keeps σ σ' id sl :
  wf σ -> dependencies (system σ) !! id = Some sl -> packageStep σ σ' ->
  wf σ' /\ dependencies (system σ') !! id = Some sl /\ arrays σ' = arrays σ.
Proof.
  intros Hwf Hsl Hstep. inversion Hstep as [σ0 id' deps | σ0 R σ1 H]; subst.
  - split; [by apply AddElement_wf|]. split; [by apply AddElement_keeps|].
    apply AddElement_arrays.
  - apply InitOrder_frame in H as ->.
    split; [exact Hwf|]. split; [exact Hsl | reflexivity].
Qed.

Lemma packageSteps_keep σ σ' id sl :
  wf σ -> dependencies (system σ) !! id = Some sl -> rtc packageStep σ σ' ->
  dependencies (system σ') !! id = Some sl /\ arrays σ' = arrays σ.
Proof.
  intros Hwf Hsl Hsteps. induction Hsteps as [σ | σ σ1 σ2 Hstep _ IH]; [by split|].
  destruct (packageStep_keeps _ _ _ _ Hwf Hsl Hstep) as (Hwf1 & Hsl1 & Harr1).
  destruct (IH Hwf1 Hsl1) as [H1 H2]. split; [exact H1 | congruence].
Qed.

Example InitOrder_linear :
  InitOrder linearGraph = Done ((["A"; "B"; "C"], None, ""), linearGraph).
Proof. vm_compute. reflexivity. Qed.

Example InitOrder_diamond :
  InitOrder diamondGraph = Done ((["A"; "B"; "C"; "D"], None, ""), diamondGraph).
Proof. vm_compute. reflexivity. Qed.

Example InitOrder_empty mem :
  InitOrder (mkState mem New) = Done (([], None, ""), mkState mem New).
Proof. reflexivity. Qed.

(** The earlier copy agrees on a graph that has elements. *)
Example Legacy_InitOrder_linear :
  Legacy.InitOrder linearGraph = Done ((["A"; "B"; "C"], None, ""), linearGraph).
Proof. vm_compute. reflexivity. Qed.

Lemma reachable_fresh : reachable fresh.
Proof. apply reach_New. Qed.

Lemma reachable_added σ id deps : reachable σ -> reachable (added σ id deps).
Proof. apply reach_AddElement. Qed.

(** ** Why [InitOrder] fails, and when it must *)

(** A failure of [InitOrder] is one of two: an element of the graph was
    entered while it waited, or an element of the graph names a dependency
    that is not in the graph. *)
Lemma InitOrder_failure_cause σ order err descr σ' :
  InitOrder σ = Done ((order, Some err, descr), σ') ->
  order = [] /\
  ((exists e, e ∈ systemElements (system σ) /\
              err = ErrCircleDetected /\ descr = circleText e) \/
   (exists e d, e ∈ systemElements (system σ) /\ dependsOn σ e d /\
                (d ∉ systemElements (system σ)) /\
                err = ErrElementMissing /\ descr = missingText d)).
Proof.
  intros Hrun. apply InitOrder_Done in Hrun as [log Hrun].
  destruct (InitOrderT_ok σ) as (R0 & log0 & H0 & Hinv & _).
  rewrite Hrun in H0. injection H0 as <- -> <-.
  apply InitOrder_loopT_cause in Hrun as (-> & ev & Hin & Hver).
  split; [reflexivity|].
  rewrite Forall_forall in Hinv. specialize (Hinv _ Hin).
  destruct ev as [io e wl els | e io d els]; simpl in Hinv, Hver.
  - left. destruct (IsElementInStringSlice wl e) eqn:Hwl; [|discriminate].
    injection Hver as <- <-. exists e. split; [|by split].
    destruct Hinv as [Hperm Hsub]. rewrite <- Hperm. apply elem_of_app. right.
    by apply Hsub, IsElementInStringSlice_spec.
  - right. destruct Hinv as (He & Hd & Hperm).
    destruct (IsElementInStringSlice io d) eqn:Hio; [discriminate|].
    destruct (IndexInStringSlice els d =? -1)%Z eqn:Hels; [|discriminate].
    injection Hver as <- <-. exists e, d. repeat split; try assumption.
    apply IsElementInStringSlice_false in Hio. apply IndexInStringSlice_spec in Hels.
    rewrite <- Hperm, elem_of_app. tauto.
Qed.

Lemma depsFirst_tc σ order e d :
  depsFirst σ order -> tc (dependsOn σ) e d ->
  forall j, order !! j = Some e -> exists i, i < j /\ order !! i = Some d.
Proof.
  intros Hdf Htc. induction Htc as [e d H | e m d H _ IH]; intros j Hj.
  - exact (Hdf j e Hj d H).
  - destruct (Hdf j e Hj m H) as (k & Hk & Hm).
    destruct (IH k Hm) as (i & Hi & Hd). exists i. split; [lia | exact Hd].
Qed.

(** On a graph a program can build, [InitOrder] never succeeds when an
    element depends on itself, directly or through other elements. *)
Lemma InitOrder_cycle_fails σ e R σ' :
  reachable σ -> e ∈ systemElements (system σ) -> tc (dependsOn σ) e e ->
  InitOrder σ = Done (R, σ') -> exists err, R.1.2 = Some err.
Proof.
  intros Hreach He Hcyc Hrun. apply reachable_wf, wf_nodup in Hreach.
  destruct R as [[order [err|]] descr]; [by exists err|]. exfalso.
  apply InitOrder_Done in Hrun as [log Hrun].
  destruct (InitOrderT_ok σ) as (R0 & log0 & H0 & _ & Hpost).
  rewrite Hrun in H0. injection H0 as <- _ _. destruct Hpost as [Hperm Hdf].
  rewrite <- Hperm in He, Hreach.
  apply list_elem_of_lookup in He as [j Hj].
  destruct (depsFirst_tc σ order e e Hdf Hcyc j Hj) as (i & Hi & Hi').
  pose proof (NoDup_lookup _ _ _ _ Hreach Hi' Hj). lia.
Qed.

(** When in addition no dependency is missing from the graph, the failure
    is [ErrCircleDetected] and names an element of the graph. *)
Lemma cycle_reports_circle σ e :
  reachable σ -> complete σ ->
  e ∈ systemElements (system σ) -> tc (dependsOn σ) e e ->
  exists x, x ∈ systemElements (system σ) /\
            InitOrder σ = Done (([], Some ErrCircleDetected, circleText x), σ).
Proof.
  intros Hreach Hcomplete He Hcyc.
  destruct (InitOrder_total σ) as [R Hrun].
  destruct (InitOrder_cycle_fails σ e R σ Hreach He Hcyc Hrun) as [err Herr].
  destruct R as [[order oerr] descr]. simpl in Herr. subst oerr.
  destruct (InitOrder_failure_cause _ _ _ _ _ Hrun)
    as (-> & [(x & Hx & -> & ->) | (x & d & Hx & Hd & Hmiss & _)]).
  - by exists x.
  - exfalso. apply Hmiss. by apply (Hcomplete x d).
Qed.

(** * The claims *)

(** C1.  On every graph a program can build, when [InitOrder] succeeds the
    order it returns holds every identifier of the graph exactly once, and
    every dependency of an element that is itself in the graph stands at an
    earlier position than the element. *)
Theorem InitOrder_valid_order σ order descr σ' :
  reachable σ ->
  InitOrder σ = Done ((order, None, descr), σ') ->
  NoDup order /\
  (forall id, id ∈ order <-> id ∈ systemElements (system σ)) /\
  length order = length (systemElements (system σ)) /\
  (forall e d, e ∈ systemElements (system σ) -> d ∈ dependenciesOf σ e ->
               d ∈ systemElements (system σ) -> precedes d e order).
Proof.
  intros Hreach Hrun. apply reachable_wf in Hreach.
  apply InitOrder_Done in Hrun as [log Hrun].
  destruct (InitOrderT_ok σ) as (R & log' & HR & _ & Hpost).
  rewrite Hrun in HR. injection HR as <- _ _.
  destruct Hpost as [Hperm Hdf].
  split; [rewrite Hperm; apply (wf_nodup _ Hreach)|].
  split; [intros id; by rewrite Hperm|].
  split; [by rewrite Hperm|].
  intros e d He Hd _. rewrite <- Hperm in He.
  apply list_elem_of_lookup in He as [j Hj].
  destruct (Hdf j e Hj d Hd) as (i & Hij & Hi).
  by exists i, j.
Qed.

Lemma InitOrder_valid_order_witness :
  reachable linearGraph /\
  InitOrder linearGraph = Done ((["A"; "B"; "C"], None, ""), linearGraph) /\
  NoDup ["A"; "B"; "C"] /\
  (forall id, id ∈ ["A"; "B"; "C"] <-> id ∈ systemElements (system linearGraph)) /\
  length ["A"; "B"; "C"] = length (systemElements (system linearGraph)) /\
  (forall e d, e ∈ systemElements (system linearGraph) ->
               d ∈ dependenciesOf linearGraph e ->
               d ∈ systemElements (system linearGraph) ->
               precedes d e ["A"; "B"; "C"]).
Proof.
  assert (Hreach : reachable linearGraph) by (repeat apply reachable_added; apply reachable_fresh).
  assert (Hrun : InitOrder linearGraph = Done ((["A"; "B"; "C"], None, ""), linearGraph))
    by (vm_compute; reflexivity).
  split; [exact Hreach|]. split; [exact Hrun|].
  exact (InitOrder_valid_order linearGraph ["A"; "B"; "C"] "" linearGraph Hreach Hrun).
Defined.

(** C2.  The earlier copy of [InitOrder] reads [elements [0]] before it
    tests the length: on a graph without elements it faults. *)
Theorem Legacy_InitOrder_empty_graph_faults (mem : gmap nat (list string)) :
  Legacy.InitOrder (mkState mem New) = Panic "runtime error: index out of range".
Proof. reflexivity. Qed.

(** C3.  ["A"] is not in the graph that holds only ["BA"], and adding it
    fails with [ErrAlreadyAdded]: the test looks for ["A/"] anywhere in
    ["BA/"]. *)
Theorem AddElement_rejects_fresh_suffix :
  systemElements (system (added fresh "BA" nilSlice)) = ["BA"] /\
  ("A" ∉ systemElements (system (added fresh "BA" nilSlice))) /\
  AddElement (added fresh "BA" nilSlice) "A" nilSlice =
  (Some ErrAlreadyAdded, added fresh "BA" nilSlice).
Proof.
  assert (E : systemElements (system (added fresh "BA" nilSlice)) = ["BA"])
    by (vm_compute; reflexivity).
  split; [exact E|]. split; [|vm_compute; reflexivity].
  rewrite E. intros H. apply list_elem_of_singleton in H. discriminate.
Qed.

(** C4.  Every call of [InitOrder] returns, with a result or a failure, and
    leaves the element sequence, the recorded slices, the arrays and so the
    dependency list of every element as they were. *)
Theorem InitOrder_read_only σ :
  exists R σ',
    InitOrder σ = Done (R, σ') /\
    systemElements (system σ') = systemElements (system σ) /\
    dependencies (system σ') = dependencies (system σ) /\
    arrays σ' = arrays σ /\
    (forall id, dependenciesOf σ' id = dependenciesOf σ id).
Proof.
  destruct (InitOrder_total σ) as [R H]. exists R, σ. by repeat split.
Qed.

(** C5, as the claim states it, fails: an element that depends on itself,
    and two elements that depend on each other, do not make [InitOrder]
    fail with [ErrCircleDetected] when a dependency that is not in the graph
    stands before the cycle in a dependency list; the test for a missing
    dependency comes before the recursive call, and [InitOrder] fails with
    [ErrElementMissing]. *)
Lemma cycle_behind_missing_dependency :
  "A" ∈ dependenciesOf selfCycleBehindMissing "A" /\
  InitOrder selfCycleBehindMissing =
    Done (([], Some ErrElementMissing, "Dependency 'Z' is missing"),
          selfCycleBehindMissing) /\
  "Y" ∈ dependenciesOf mutualCycleBehindMissing "X" /\
  "X" ∈ dependenciesOf mutualCycleBehindMissing "Y" /\
  InitOrder mutualCycleBehindMissing =
    Done (([], Some ErrElementMissing, "Dependency 'Z' is missing"),
          mutualCycleBehindMissing).
Proof.
  assert (E1 : dependenciesOf selfCycleBehindMissing "A" = ["Z"; "A"])
    by (vm_compute; reflexivity).
  assert (E2 : dependenciesOf mutualCycleBehindMissing "X" = ["Z"; "Y"])
    by (vm_compute; reflexivity).
  assert (E3 : dependenciesOf mutualCycleBehindMissing "Y" = ["X"])
    by (vm_compute; reflexivity).
  rewrite E1, E2, E3.
  split; [apply list_elem_of_further, list_elem_of_here|].
  split; [vm_compute; reflexivity|].
  split; [apply list_elem_of_further, list_elem_of_here|].
  split; [apply list_elem_of_here|].
  vm_compute; reflexivity.
Qed.

(** C5, amended.  When the traversal enters the helper for an identifier
    that is on the waiting list, [InitOrder] fails with [ErrCircleDetected]
    and names that identifier; in particular, on a graph a program can build
    in which no element names a dependency that is not in the graph, an
    element that depends on itself, and two elements that depend on each
    other, make [InitOrder] fail with [ErrCircleDetected], naming an element
    of the graph. *)
Theorem in_progress_revisit_reports_circle :
  (forall σ R σ' log initOrder element waitingList elements,
      InitOrderT σ = Done (R, σ', log) ->
      Enter initOrder element waitingList elements ∈ log ->
      element ∈ waitingList ->
      InitOrder σ =
      Done (([], Some ErrCircleDetected,
             "Element '" +:+ element +:+ "' is part of the circle."), σ)) /\
  (forall σ e,
      reachable σ -> complete σ ->
      e ∈ systemElements (system σ) -> e ∈ dependenciesOf σ e ->
      exists x, x ∈ systemElements (system σ) /\
        InitOrder σ =
        Done (([], Some ErrCircleDetected,
               "Element '" +:+ x +:+ "' is part of the circle."), σ)) /\
  (forall σ x y,
      reachable σ -> complete σ ->
      x ∈ systemElements (system σ) ->
      y ∈ dependenciesOf σ x -> x ∈ dependenciesOf σ y ->
      exists z, z ∈ systemElements (system σ) /\
        InitOrder σ =
        Done (([], Some ErrCircleDetected,
               "Element '" +:+ z +:+ "' is part of the circle."), σ)).
Proof.
  split; [|split].
  - intros σ R σ' log io e wl els Hrun Hin Hwl.
    pose proof (InitOrderT_Done _ _ _ _ Hrun) as Hcode.
    apply InitOrderT_agrees in Hrun as [-> Hag].
    rewrite Hcode. f_equal. f_equal.
    apply (Hag _ _ _ Hin). simpl.
    apply IsElementInStringSlice_spec in Hwl. by rewrite Hwl.
  - intros σ e Hreach Hcomplete He Hself.
    apply (cycle_reports_circle σ e Hreach Hcomplete He). by apply tc_once.
  - intros σ x y Hreach Hcomplete Hx Hxy Hyx.
    apply (cycle_reports_circle σ x Hreach Hcomplete Hx).
    apply tc_l with y; [exact Hxy | by apply tc_once].
Qed.

Lemma in_progress_revisit_reports_circle_witness :
  InitOrderT selfCycle =
    Done (([], Some ErrCircleDetected, "Element 'A' is part of the circle."), selfCycle,
          [Enter [] "A" [] ["A"]; Examine "A" [] "A" ["A"]; Enter [] "A" ["A"] ["A"]]) /\
  Enter [] "A" ["A"] ["A"]
    ∈ [Enter [] "A" [] ["A"]; Examine "A" [] "A" ["A"]; Enter [] "A" ["A"] ["A"]] /\
  "A" ∈ ["A"] /\
  InitOrder selfCycle =
    Done (([], Some ErrCircleDetected, "Element '" +:+ "A" +:+ "' is part of the circle."),
          selfCycle) /\
  reachable mutualCycle /\ complete mutualCycle /\
  "X" ∈ systemElements (system mutualCycle) /\
  "Y" ∈ dependenciesOf mutualCycle "X" /\ "X" ∈ dependenciesOf mutualCycle "Y" /\
  exists z, z ∈ systemElements (system mutualCycle) /\
    InitOrder mutualCycle =
    Done (([], Some ErrCircleDetected, "Element '" +:+ z +:+ "' is part of the circle."),
          mutualCycle).
Proof.
  assert (Hrun : InitOrderT selfCycle =
    Done (([], Some ErrCircleDetected, "Element 'A' is part of the circle."), selfCycle,
          [Enter [] "A" [] ["A"]; Examine "A" [] "A" ["A"]; Enter [] "A" ["A"] ["A"]]))
    by (vm_compute; reflexivity).
  assert (Hin : Enter [] "A" ["A"] ["A"]
    ∈ [Enter [] "A" [] ["A"]; Examine "A" [] "A" ["A"]; Enter [] "A" ["A"] ["A"]])
    by (do 2 apply list_elem_of_further; apply list_elem_of_here).
  assert (Hwl : "A" ∈ ["A"]) by apply list_elem_of_here.
  assert (Hreach : reachable mutualCycle)
    by (repeat apply reachable_added; apply reachable_fresh).
  assert (EG : systemElements (system mutualCycle) = ["X"; "Y"]) by (vm_compute; reflexivity).
  assert (EX : dependenciesOf mutualCycle "X" = ["Y"]) by (vm_compute; reflexivity).
  assert (EY : dependenciesOf mutualCycle "Y" = ["X"]) by (vm_compute; reflexivity).
  assert (Hcomplete : complete mutualCycle).
  { intros e d He Hd. unfold dependsOn in Hd. rewrite EG in He |- *.
    apply elem_of_cons in He as [->|He].
    - rewrite EX in Hd. apply list_elem_of_singleton in Hd as ->.
      apply list_elem_of_further, list_elem_of_here.
    - apply list_elem_of_singleton in He as ->.
      rewrite EY in Hd. apply list_elem_of_singleton in Hd as ->. apply list_elem_of_here. }
  assert (Hx : "X" ∈ systemElements (system mutualCycle))
    by (rewrite EG; apply list_elem_of_here).
  assert (Hxy : "Y" ∈ dependenciesOf mutualCycle "X") by (rewrite EX; apply list_elem_of_here).
  assert (Hyx : "X" ∈ dependenciesOf mutualCycle "Y") by (rewrite EY; apply list_elem_of_here).
  split; [exact Hrun|]. split; [exact Hin|]. split; [exact Hwl|].
  split; [exact (proj1 in_progress_revisit_reports_circle _ _ _ _ _ _ _ _ Hrun Hin Hwl)|].
  split; [exact Hreach|]. split; [exact Hcomplete|]. split; [exact Hx|].
  split; [exact Hxy|]. split; [exact Hyx|].
  exact (proj2 (proj2 in_progress_revisit_reports_circle) mutualCycle "X" "Y"
           Hreach Hcomplete Hx Hxy Hyx).
Defined.

(** The two graphs of the spec's examples. *)
Example InitOrder_selfCycle :
  InitOrder selfCycle =
    Done (([], Some ErrCircleDetected, "Element 'A' is part of the circle."), selfCycle).
Proof. vm_compute. reflexivity. Qed.

Example InitOrder_mutualCycle :
  InitOrder mutualCycle =
    Done (([], Some ErrCircleDetected, "Element 'X' is part of the circle."), mutualCycle).
Proof. vm_compute. reflexivity. Qed.

(** C6.  When the loop takes up a dependency that is not an identifier of
    the graph, [InitOrder] fails with [ErrElementMissing] and names that
    dependency; the graph of [AddElement ("A", ["Z"])] alone is such a
    graph. *)
Theorem unknown_dependency_reported :
  (forall σ R σ' log element initOrder dependency elements,
      InitOrderT σ = Done (R, σ', log) ->
      Examine element initOrder dependency elements ∈ log ->
      dependency ∉ systemElements (system σ) ->
      InitOrder σ =
      Done (([], Some ErrElementMissing,
             "Dependency '" +:+ dependency +:+ "' is missing"), σ)) /\
  InitOrder missingZ =
    Done (([], Some ErrElementMissing, "Dependency 'Z' is missing"), missingZ).
Proof.
  split; [|vm_compute; reflexivity].
  intros σ R σ' log e io d els Hrun Hin Hd.
  pose proof (InitOrderT_Done _ _ _ _ Hrun) as Hcode.
  destruct (InitOrderT_ok σ) as (R0 & log0 & H0 & Hinv & _).
  rewrite Hrun in H0. injection H0 as <- -> <-.
  apply InitOrderT_agrees in Hrun as [_ Hag].
  rewrite Hcode. f_equal. f_equal.
  apply (Hag _ _ _ Hin).
  rewrite Forall_forall in Hinv. specialize (Hinv _ Hin). simpl in Hinv.
  destruct Hinv as (_ & _ & Hinv).
  rewrite <- Hinv, elem_of_app in Hd.
  assert (H1 : IsElementInStringSlice io d = false)
    by (apply IsElementInStringSlice_false; tauto).
  assert (H2 : (IndexInStringSlice els d =? -1)%Z = true)
    by (apply IndexInStringSlice_spec; tauto).
  simpl. by rewrite H1, H2.
Qed.

Lemma unknown_dependency_reported_witness :
  InitOrderT missingZ =
    Done (([], Some ErrElementMissing, "Dependency 'Z' is missing"), missingZ,
          [Enter [] "A" [] ["A"]; Examine "A" [] "Z" ["A"]]) /\
  Examine "A" [] "Z" ["A"] ∈ [Enter [] "A" [] ["A"]; Examine "A" [] "Z" ["A"]] /\
  ("Z" ∉ systemElements (system missingZ)) /\
  InitOrder missingZ =
    Done (([], Some ErrElementMissing, "Dependency '" +:+ "Z" +:+ "' is missing"), missingZ).
Proof.
  assert (Hrun : InitOrderT missingZ =
    Done (([], Some ErrElementMissing, "Dependency 'Z' is missing"), missingZ,
          [Enter [] "A" [] ["A"]; Examine "A" [] "Z" ["A"]]))
    by (vm_compute; reflexivity).
  assert (Hin : Examine "A" [] "Z" ["A"] ∈ [Enter [] "A" [] ["A"]; Examine "A" [] "Z" ["A"]])
    by (apply list_elem_of_further, list_elem_of_here).
  assert (Hd : "Z" ∉ systemElements (system missingZ)).
  { change (systemElements (system missingZ)) with ["A"].
    intros H. apply list_elem_of_singleton in H. discriminate. }
  split; [exact Hrun|]. split; [exact Hin|]. split; [exact Hd|].
  exact (proj1 unknown_dependency_reported _ _ _ _ _ _ _ _ Hrun Hin Hd).
Defined.

(** C7.  The earlier copy of [AddElement] has no validation: the empty
    identifier is stored, and so is an element with an empty dependency
    identifier. *)
Theorem Legacy_AddElement_accepts_empty :
  Legacy.AddElement fresh "" nilSlice =
    (None, mkState exampleArrays (mkSystem [""] {[ "" := nilSlice ]} "/")) /\
  fst (Legacy.AddElement fresh "A" (Slice 7 0 1)) = None /\
  systemElements (system (snd (Legacy.AddElement fresh "A" (Slice 7 0 1)))) = ["A"] /\
  dependenciesOf (snd (Legacy.AddElement fresh "A" (Slice 7 0 1))) "A" = [""].
Proof. repeat split; vm_compute; reflexivity. Qed.

(** C8, as the claim states it, fails: between two calls of [InitOrder],
    with no call of [AddElement], the caller writes [deps [0] = "C"] to the
    sequence it passed in for [B]; the first call returns the order
    [A, B], the second fails with [ErrElementMissing]. *)
Lemma InitOrder_differs_after_caller_write :
  InitOrder sharedGraph = Done ((["A"; "B"], None, ""), sharedGraph) /\
  system (callerWrite sharedGraph 1 0 "C") = system sharedGraph /\
  InitOrder (callerWrite sharedGraph 1 0 "C") =
    Done (([], Some ErrElementMissing, "Dependency 'C' is missing"),
          callerWrite sharedGraph 1 0 "C").
Proof. repeat split; vm_compute; reflexivity. Qed.

(** C8, amended.  A call of [InitOrder] returns a result and the state it
    was given, so the next call, with no call of [AddElement] and no write
    of the caller to a dependency sequence between the two, runs on the same
    graph and returns the same result; and the result is the same on every
    state with the same element sequence and the same dependency list, as it
    reads at the time of the call, for every identifier. *)
Theorem InitOrder_repeatable σ :
  exists R,
    InitOrder σ = Done (R, σ) /\
    forall σ',
      systemElements (system σ') = systemElements (system σ) ->
      (forall e, dependenciesOf σ' e = dependenciesOf σ e) ->
      InitOrder σ' = Done (R, σ').
Proof.
  destruct (InitOrder_total σ) as [R H]. exists R. split; [exact H|].
  intros σ' Hels Hdeps. destruct (InitOrder_total σ') as [R' H'].
  pose proof (InitOrder_ext σ' σ Hdeps Hels) as E.
  rewrite H, H' in E. simpl in E. by injection E as ->.
Qed.

Lemma InitOrder_repeatable_witness :
  systemElements (system linearGraph') = systemElements (system linearGraph) /\
  (forall e, dependenciesOf linearGraph' e = dependenciesOf linearGraph e) /\
  InitOrder linearGraph = Done ((["A"; "B"; "C"], None, ""), linearGraph) /\
  InitOrder linearGraph' = Done ((["A"; "B"; "C"], None, ""), linearGraph').
Proof.
  assert (H1 : systemElements (system linearGraph') = systemElements (system linearGraph))
    by reflexivity.
  assert (H2 : forall e, dependenciesOf linearGraph' e = dependenciesOf linearGraph e)
    by reflexivity.
  split; [exact H1|]. split; [exact H2|].
  destruct (InitOrder_repeatable linearGraph) as (R & Hrun & Hsame).
  assert (HR : R = (["A"; "B"; "C"], None, "")).
  { assert (Hc : InitOrder linearGraph = Done ((["A"; "B"; "C"], None, ""), linearGraph))
      by (vm_compute; reflexivity).
    rewrite Hc in Hrun. by injection Hrun as <-. }
  subst R. split; [exact Hrun|]. exact (Hsame linearGraph' H1 H2).
Defined.

(** C9, as the claim states it, fails: [AddElement] records the slice it is
    given, not a copy, so a write of the caller to [deps [0]] after the call
    changes the dependency list of the element. *)
Lemma stored_list_follows_caller_write :
  fst (AddElement fresh "B" (Slice 1 0 1)) = None /\
  contents fresh (Slice 1 0 1) = ["A"] /\
  dependenciesOf (added fresh "B" (Slice 1 0 1)) "B" = ["A"] /\
  dependenciesOf (callerWrite (added fresh "B" (Slice 1 0 1)) 1 0 "C") "B" = ["C"].
Proof. repeat split; vm_compute; reflexivity. Qed.

(** C9, amended.  A successful [AddElement (id, deps)] records against [id]
    the slice [deps] itself, which then reads as the given identifiers in
    the given order; and no later call of [AddElement] or [InitOrder]
    changes the slice recorded against [id] or any array, so the list stays
    what it was for as long as the caller does not write to the array. *)
Theorem AddElement_records_slice σ id deps :
  reachable σ ->
  fst (AddElement σ id deps) = None ->
  dependencies (system (snd (AddElement σ id deps))) !! id = Some deps /\
  dependenciesOf (snd (AddElement σ id deps)) id = contents σ deps /\
  forall σ', rtc packageStep (snd (AddElement σ id deps)) σ' ->
    dependencies (system σ') !! id = Some deps /\
    arrays σ' = arrays σ /\
    dependenciesOf σ' id = contents σ deps.
Proof.
  intros Hreach Hok.
  assert (Hrec : dependencies (system (snd (AddElement σ id deps))) !! id = Some deps).
  { rewrite (AddElement_success _ _ _ Hok). simpl. apply lookup_insert_eq. }
  assert (Hwf : wf (snd (AddElement σ id deps))).
  { apply AddElement_wf, reachable_wf, Hreach. }
  assert (Hread : forall σ', dependencies (system σ') !! id = Some deps ->
                    arrays σ' = arrays σ -> dependenciesOf σ' id = contents σ deps).
  { intros σ' H1 H2. unfold dependenciesOf. rewrite H1. simpl. by apply contents_arrays. }
  split; [exact Hrec|]. split.
  { apply Hread; [exact Hrec | apply AddElement_arrays]. }
  intros σ' Hsteps.
  destruct (packageSteps_keep _ _ _ _ Hwf Hrec Hsteps) as [H1 H2].
  rewrite AddElement_arrays in H2. auto.
Qed.

Lemma AddElement_records_slice_witness :
  reachable fresh /\
  fst (AddElement fresh "B" (Slice 1 0 1)) = None /\
  dependencies (system (snd (AddElement fresh "B" (Slice 1 0 1)))) !! "B"
    = Some (Slice 1 0 1) /\
  dependenciesOf (snd (AddElement fresh "B" (Slice 1 0 1))) "B"
    = contents fresh (Slice 1 0 1) /\
  forall σ', rtc packageStep (snd (AddElement fresh "B" (Slice 1 0 1))) σ' ->
    dependencies (system σ') !! "B" = Some (Slice 1 0 1) /\
    arrays σ' = arrays fresh /\
    dependenciesOf σ' "B" = contents fresh (Slice 1 0 1).
Proof.
  assert (Hok : fst (AddElement fresh "B" (Slice 1 0 1)) = None) by reflexivity.
  split; [exact reachable_fresh|]. split; [exact Hok|].
  exact (AddElement_records_slice fresh "B" (Slice 1 0 1) reachable_fresh Hok).
Defined.

(** C10.  At every entry to the helper during a call of [InitOrder] on a
    graph a program can build, each identifier of the graph is in exactly
    one of [elements] and [initOrder], these two hold nothing else, and
    what is on the waiting list is in [elements]; and whenever the loop
    takes up a dependency, the test "not in [initOrder] and not in
    [elements]" holds exactly when the dependency is not in the graph. *)
Theorem traversal_invariant σ R σ' log :
  reachable σ ->
  InitOrderT σ = Done (R, σ', log) ->
  forall ev, ev ∈ log ->
    match ev with
    | Enter initOrder element waitingList elements =>
        (forall id, id ∈ systemElements (system σ) ->
                    (id ∈ elements /\ id ∉ initOrder) \/
                    (id ∈ initOrder /\ id ∉ elements)) /\
        (forall id, id ∈ elements \/ id ∈ initOrder -> id ∈ systemElements (system σ)) /\
        NoDup elements /\ NoDup initOrder /\
        (forall w, w ∈ waitingList -> w ∈ elements)
    | Examine element initOrder dependency elements =>
        element ∈ systemElements (system σ) /\
        dependency ∈ dependenciesOf σ element /\
        ((IsElementInStringSlice initOrder dependency = false /\
          (IndexInStringSlice elements dependency =? -1)%Z = true)
         <-> dependency ∉ systemElements (system σ))
    end.
Proof.
  intros Hreach Hrun ev Hin. apply reachable_wf, wf_nodup in Hreach.
  destruct (InitOrderT_ok σ) as (R0 & log0 & H0 & Hinv & _).
  rewrite Hrun in H0. injection H0 as <- -> <-.
  rewrite Forall_forall in Hinv. specialize (Hinv _ Hin).
  destruct ev as [io e wl els | e io d els]; simpl in Hinv.
  - destruct Hinv as [Hperm Hwl].
    rewrite <- Hperm in Hreach. apply NoDup_app in Hreach as (Hio & Hdisj & Hels).
    split; [|split; [|split; [exact Hels | split; [exact Hio | exact Hwl]]]].
    + intros id Hid. rewrite <- Hperm, elem_of_app in Hid.
      destruct Hid as [Hid|Hid].
      * right. split; [exact Hid | by apply Hdisj].
      * left. split; [exact Hid | intros Hid'; by apply (Hdisj id)].
    + intros id Hid. rewrite <- Hperm, elem_of_app. tauto.
  - destruct Hinv as (He & Hd & Hinv).
    split; [exact He|]. split; [exact Hd|].
    rewrite IsElementInStringSlice_false, IndexInStringSlice_spec.
    rewrite <- Hinv, elem_of_app. tauto.
Qed.

Lemma traversal_invariant_witness :
  reachable selfCycle /\
  InitOrderT selfCycle =
    Done (([], Some ErrCircleDetected, "Element 'A' is part of the circle."), selfCycle,
          [Enter [] "A" [] ["A"]; Examine "A" [] "A" ["A"]; Enter [] "A" ["A"] ["A"]]) /\
  Enter [] "A" ["A"] ["A"]
    ∈ [Enter [] "A" [] ["A"]; Examine "A" [] "A" ["A"]; Enter [] "A" ["A"] ["A"]] /\
  (forall id, id ∈ systemElements (system selfCycle) ->
              (id ∈ ["A"] /\ id ∉ @nil string) \/ (id ∈ @nil string /\ id ∉ ["A"])) /\
  (forall id, id ∈ ["A"] \/ id ∈ @nil string -> id ∈ systemElements (system selfCycle)) /\
  NoDup ["A"] /\ NoDup (@nil string) /\
  (forall w, w ∈ ["A"] -> w ∈ ["A"]).
Proof.
  assert (Hreach : reachable selfCycle) by (apply reachable_added, reachable_fresh).
  assert (Hrun : InitOrderT selfCycle =
    Done (([], Some ErrCircleDetected, "Element 'A' is part of the circle."), selfCycle,
          [Enter [] "A" [] ["A"]; Examine "A" [] "A" ["A"]; Enter [] "A" ["A"] ["A"]]))
    by (vm_compute; reflexivity).
  assert (Hin : Enter [] "A" ["A"] ["A"]
    ∈ [Enter [] "A" [] ["A"]; Examine "A" [] "A" ["A"]; Enter [] "A" ["A"] ["A"]])
    by (do 2 apply list_elem_of_further; apply list_elem_of_here).
  split; [exact Hreach|]. split; [exact Hrun|]. split; [exact Hin|].
  exact (traversal_invariant selfCycle _ _ _ Hreach Hrun _ Hin).
Defined.

(** * Further properties *)

(** ** The waiting list is a chain of dependencies *)

Lemma chained_single σ e : chained σ ([] ++ [e]).
Proof. intros i x y Hx Hy. destruct i; discriminate. Qed.

Lemma chained_snoc σ l x y :
  chained σ (l ++ [x]) -> dependsOn σ x y -> chained σ ((l ++ [x]) ++ [y]).
Proof.
  intros Hl Hxy i a b Ha Hb.
  destruct (decide (S i < length (l ++ [x]))) as [Hlt|Hge].
  - rewrite lookup_app_l in Ha by lia. rewrite lookup_app_l in Hb by exact Hlt.
    by apply (Hl i).
  - pose proof (lookup_lt_Some _ _ _ Hb) as Hlen.
    rewrite length_app in Hlen. simpl in Hlen.
    assert (Hi : S i = length (l ++ [x])) by lia.
    rewrite lookup_app_r in Hb by lia.
    rewrite Hi, Nat.sub_diag in Hb. injection Hb as <-.
    rewrite lookup_app_l in Ha by lia.
    rewrite length_app in Hi. simpl in Hi.
    rewrite lookup_app_r in Ha by lia.
    replace (i - length l) with 0 in Ha by lia. injection Ha as <-. exact Hxy.
Qed.

Lemma chained_path σ l : chained σ l ->
  forall n i x y, l !! i = Some x -> l !! (i + S n) = Some y -> tc (dependsOn σ) x y.
Proof.
  intros Hl n. induction n as [|n IH]; intros i x y Hx Hy.
  - apply tc_once, (Hl i); [exact Hx|]. by rewrite Nat.add_1_r in Hy.
  - assert (Hm : is_Some (l !! S i)).
    { apply lookup_lt_is_Some. pose proof (lookup_lt_Some _ _ _ Hy). lia. }
    destruct Hm as [m Hm].
    apply tc_l with m; [by apply (Hl i)|].
    apply (IH (S i)); [exact Hm|]. by replace (S i + S n) with (i + S (S n)) by lia.
Qed.

Lemma chained_cycle σ wl e :
  chained σ (wl ++ [e]) -> e ∈ wl -> tc (dependsOn σ) e e.
Proof.
  intros Hl Hin. apply list_elem_of_lookup in Hin as [i Hi].
  pose proof (lookup_lt_Some _ _ _ Hi) as Hlt.
  apply (chained_path σ _ Hl (length wl - S i) i).
  - by rewrite lookup_app_l.
  - replace (i + S (length wl - S i)) with (length wl) by lia.
    rewrite lookup_app_r by lia. by rewrite Nat.sub_diag.
Qed.

Lemma rangeDependenciesT_chained visit e s :
  (forall io d els r s' log,
      visit io d els s = Done (r, s', log) ->
      s' = s /\ (dependsOn s e d -> entriesChained s log)) ->
  forall deps io els r s' log,
    (forall d, d ∈ deps -> dependsOn s e d) ->
    rangeDependenciesT visit e deps io els s = Done (r, s', log) ->
    s' = s /\ entriesChained s log.
Proof.
  intros Hv deps. induction deps as [|d rest IH]; intros io els r s' log Hsub; simpl.
  - intros [= <- <- <-]. split; [reflexivity|]. intros ? ? ? ? H. inversion H.
  - assert (Hsub' : forall d', d' ∈ rest -> dependsOn s e d')
      by (intros d' Hd'; apply Hsub; by right).
    assert (Hd : dependsOn s e d) by (apply Hsub; left).
    destruct (IsElementInStringSlice io d).
    + destruct (rangeDependenciesT visit e rest io els s) as [[[r0 s0] log0]| |] eqn:E;
        intros [= <- <- <-].
      destruct (IH _ _ _ _ _ Hsub' E) as [-> Hc]. split; [reflexivity|].
      intros io' e' wl' els' Hin. apply elem_of_cons in Hin as [Hin|Hin]; [discriminate|].
      by eapply Hc.
    + destruct (IndexInStringSlice els d =? -1)%Z.
      * intros [= <- <- <-]. split; [reflexivity|].
        intros io' e' wl' els' Hin. apply list_elem_of_singleton in Hin. discriminate.
      * destruct (visit io d els s) as [[[[[[io1 els1] [err1|]] descr1] s1] log1]| |] eqn:E;
          try discriminate.
        -- intros [= <- <- <-]. destruct (Hv _ _ _ _ _ _ E) as [-> Hc].
           split; [reflexivity|].
           intros io' e' wl' els' Hin.
           apply elem_of_cons in Hin as [Hin|Hin]; [discriminate|]. by eapply Hc.
        -- destruct (Hv _ _ _ _ _ _ E) as [-> Hc].
           destruct (rangeDependenciesT visit e rest io1 els1 s) as [[[r0 s0] log0]| |] eqn:E2;
             intros [= <- <- <-].
           destruct (IH _ _ _ _ _ Hsub' E2) as [-> Hc2]. split; [reflexivity|].
           intros io' e' wl' els' Hin.
           apply elem_of_cons in Hin as [Hin|Hin]; [discriminate|].
           apply elem_of_app in Hin as [Hin|Hin]; [by eapply Hc | by eapply Hc2].
Qed.

Lemma addToInitOrderT_chained fuel : forall io e wl els s r s' log,
  chained s (wl ++ [e]) ->
  addToInitOrderT fuel io e wl els s = Done (r, s', log) ->
  entriesChained s log.
Proof.
  induction fuel as [|fuel IH]; intros io e wl els s r s' log Hch; simpl; [discriminate|].
  assert (Hhere : forall log0, entriesChained s log0 ->
                    entriesChained s (Enter io e wl els :: log0)).
  { intros log0 H io' e' wl' els' Hin.
    apply elem_of_cons in Hin as [Hin|Hin]; [|by eapply H].
    by injection Hin as -> -> -> ->. }
  assert (Hnil : entriesChained s []) by (intros ? ? ? ? H; inversion H).
  destruct (IsElementInStringSlice wl e).
  { intros [= <- <- <-]. by apply Hhere. }
  destruct (length (dependenciesOf s e) =? 0)%nat.
  { intros [= <- <- <-]. by apply Hhere. }
  assert (Hvisit : forall io0 d els0 r0 s0 log0,
             addToInitOrderT fuel io0 d (wl ++ [e]) els0 s = Done (r0, s0, log0) ->
             s0 = s /\ (dependsOn s e d -> entriesChained s log0)).
  { intros io0 d els0 r0 s0 log0 Hcall. split.
    - by apply addToInitOrderT_agrees in Hcall as [-> _].
    - intros Hd. apply (IH _ _ _ _ _ _ _ _ (chained_snoc _ _ _ _ Hch Hd) Hcall). }
  destruct (rangeDependenciesT _ _ _ _ _ _)
    as [[[[[[io1 els1] [err1|]] descr1] s1] log1]| |] eqn:E; try discriminate;
    intros [= <- <- <-]; apply Hhere;
    apply (rangeDependenciesT_chained _ _ _ Hvisit) in E as [_ E]; try exact E;
    by intros.
Qed.

Lemma InitOrder_loopT_chained fuel depth : forall io els s R s' log,
  InitOrder_loopT fuel depth io els [] s = Done (R, s', log) -> entriesChained s log.
Proof.
  induction fuel as [|fuel IH]; intros io els s R s' log; simpl; [discriminate|].
  destruct els as [|e els'].
  { intros [= <- <- <-]. intros ? ? ? ? H. inversion H. }
  destruct (addToInitOrderT depth io e [] (e :: els') s)
    as [[[[[[io1 els1] [err1|]] descr1] s1] log1]| |] eqn:E; try discriminate.
  - intros [= <- <- <-]. apply (addToInitOrderT_chained _ _ _ _ _ _ _ _ _ (chained_single s e) E).
  - pose proof (addToInitOrderT_chained _ _ _ _ _ _ _ _ _ (chained_single s e) E) as Hc.
    apply addToInitOrderT_agrees in E as [-> _].
    destruct (InitOrder_loopT fuel depth io1 els1 [] s) as [[[R0 s0] log0]| |] eqn:E2;
      intros [= <- <- <-].
    apply IH in E2. intros io2 e2 wl2 els2 Hin.
    apply elem_of_app in Hin as [Hin|Hin]; [by eapply Hc | by eapply E2].
Qed.

(** Why a failure was returned: the element that is named lies on a cycle
    of dependencies, or the dependency that is named is not in the graph. *)
Lemma InitOrder_failure_reason σ order err descr σ' :
  InitOrder σ = Done ((order, Some err, descr), σ') ->
  order = [] /\ σ' = σ /\
  ((exists e, e ∈ systemElements (system σ) /\ tc (dependsOn σ) e e /\
              err = ErrCircleDetected /\ descr = circleText e) \/
   (exists e d, e ∈ systemElements (system σ) /\ dependsOn σ e d /\
                (d ∉ systemElements (system σ)) /\
                err = ErrElementMissing /\ descr = missingText d)).
Proof.
  intros Hrun. apply InitOrder_Done in Hrun as [log Hrun].
  destruct (InitOrderT_ok σ) as (R0 & log0 & H0 & Hinv & _).
  rewrite Hrun in H0. injection H0 as <- -> <-.
  pose proof (InitOrder_loopT_chained _ _ _ _ _ _ _ _ Hrun) as Hch.
  apply InitOrder_loopT_cause in Hrun as (-> & ev & Hin & Hver).
  split; [reflexivity|]. split; [reflexivity|].
  rewrite Forall_forall in Hinv. specialize (Hinv _ Hin).
  destruct ev as [io e wl els | e io d els]; simpl in Hinv, Hver.
  - left. destruct (IsElementInStringSlice wl e) eqn:Hwl; [|discriminate].
    injection Hver as <- <-. apply IsElementInStringSlice_spec in Hwl.
    exists e. split; [|split; [|by split]].
    + destruct Hinv as [Hperm Hsub]. rewrite <- Hperm. apply elem_of_app. right.
      by apply Hsub.
    + apply (chained_cycle σ wl e); [by eapply Hch | exact Hwl].
  - right. destruct Hinv as (He & Hd & Hperm).
    destruct (IsElementInStringSlice io d) eqn:Hio; [discriminate|].
    destruct (IndexInStringSlice els d =? -1)%Z eqn:Hels; [|discriminate].
    injection Hver as <- <-. exists e, d. repeat split; try assumption.
    apply IsElementInStringSlice_false in Hio. apply IndexInStringSlice_spec in Hels.
    rewrite <- Hperm, elem_of_app. tauto.
Qed.

Lemma InitOrder_loop_success_descr fuel depth : forall io els wl σ order descr σ',
  InitOrder_loop fuel depth io els wl σ = Done ((order, None, descr), σ') -> descr = "".
Proof.
  induction fuel as [|fuel IH]; intros io els wl σ order descr σ'; simpl; [discriminate|].
  destruct els as [|e els']; [by intros [= _ <- _]|].
  destruct (addToInitOrder depth io e wl (e :: els') σ)
    as [[[[[io1 els1] [err1|]] descr1] σ1]| |]; try discriminate.
  apply IH.
Qed.

Lemma InitOrder_success_facts σ order descr σ' :
  InitOrder σ = Done ((order, None, descr), σ') ->
  order ≡ₚ systemElements (system σ) /\ depsFirst σ order /\ σ' = σ /\ descr = "".
Proof.
  intros Hrun. pose proof (InitOrder_loop_success_descr _ _ _ _ _ _ _ _ _ Hrun) as ->.
  apply InitOrder_Done in Hrun as [log Hrun].
  destruct (InitOrderT_ok σ) as (R0 & log0 & H0 & _ & Hpost).
  rewrite Hrun in H0. injection H0 as <- -> _. destruct Hpost as [H1 H2]. by repeat split.
Qed.

(** X1.  A failure of [InitOrder] comes with a nil order and an unchanged
    state, and what it names is to blame: with [ErrCircleDetected] an
    element of the graph that depends on itself, directly or through other
    elements; with [ErrElementMissing] a dependency of an element of the
    graph that is not in the graph. *)
Theorem InitOrder_failure_names_culprit σ order err descr σ' :
  InitOrder σ = Done ((order, Some err, descr), σ') ->
  order = [] /\ σ' = σ /\
  ((exists e, e ∈ systemElements (system σ) /\ tc (dependsOn σ) e e /\
              err = ErrCircleDetected /\
              descr = "Element '" +:+ e +:+ "' is part of the circle.") \/
   (exists e d, e ∈ systemElements (system σ) /\ d ∈ dependenciesOf σ e /\
                (d ∉ systemElements (system σ)) /\
                err = ErrElementMissing /\
                descr = "Dependency '" +:+ d +:+ "' is missing")).
Proof. apply InitOrder_failure_reason. Qed.

Lemma InitOrder_failure_names_culprit_witness :
  InitOrder mutualCycle =
    Done (([], Some ErrCircleDetected, "Element 'X' is part of the circle."), mutualCycle) /\
  @nil string = [] /\ mutualCycle = mutualCycle /\
  ((exists e, e ∈ systemElements (system mutualCycle) /\
              tc (dependsOn mutualCycle) e e /\
              ErrCircleDetected = ErrCircleDetected /\
              "Element 'X' is part of the circle."
              = "Element '" +:+ e +:+ "' is part of the circle.") \/
   (exists e d, e ∈ systemElements (system mutualCycle) /\
                d ∈ dependenciesOf mutualCycle e /\
                (d ∉ systemElements (system mutualCycle)) /\
                ErrCircleDetected = ErrElementMissing /\
                "Element 'X' is part of the circle."
                = "Dependency '" +:+ d +:+ "' is missing")).
Proof.
  assert (Hrun : InitOrder mutualCycle =
    Done (([], Some ErrCircleDetected, "Element 'X' is part of the circle."), mutualCycle))
    by (vm_compute; reflexivity).
  split; [exact Hrun|].
  exact (InitOrder_failure_names_culprit mutualCycle _ _ _ _ Hrun).
Defined.

(** X2.  On a graph a program can build, [InitOrder] succeeds exactly when
    no element names a dependency that is not in the graph and no element
    depends on itself, directly or through other elements. *)
Theorem InitOrder_succeeds_iff σ :
  reachable σ ->
  (exists order, InitOrder σ = Done ((order, None, ""), σ)) <->
  complete σ /\ acyclic σ.
Proof.
  intros Hreach. split.
  - intros [order Hrun]. split.
    + intros e d He Hd.
      apply InitOrder_success_facts in Hrun as (Hperm & Hdf & _).
      rewrite <- Hperm in He |- *. apply list_elem_of_lookup in He as [j Hj].
      destruct (Hdf j e Hj d Hd) as (i & _ & Hi). apply list_elem_of_lookup. by exists i.
    + intros e He Hcyc.
      destruct (InitOrder_cycle_fails σ e _ _ Hreach He Hcyc Hrun) as [err Herr].
      discriminate.
  - intros [Hcomplete Hacyclic].
    destruct (InitOrder_total σ) as [[[order [err|]] descr] Hrun].
    + exfalso. destruct (InitOrder_failure_reason _ _ _ _ _ Hrun)
        as (_ & _ & [(e & He & Hcyc & _) | (e & d & He & Hd & Hmiss & _)]).
      * by apply (Hacyclic e).
      * apply Hmiss. by apply (Hcomplete e d).
    + exists order. by destruct (InitOrder_success_facts _ _ _ _ Hrun) as (_ & _ & _ & ->).
Qed.

Lemma InitOrder_succeeds_iff_witness :
  reachable linearGraph /\
  ((exists order, InitOrder linearGraph = Done ((order, None, ""), linearGraph)) <->
   complete linearGraph /\ acyclic linearGraph).
Proof.
  assert (Hreach : reachable linearGraph)
    by (repeat apply reachable_added; apply reachable_fresh).
  split; [exact Hreach|]. exact (InitOrder_succeeds_iff linearGraph Hreach).
Defined.

(** ** An insertion order that is already valid *)

Lemma rangeDependencies_all_done visit deps io els s :
  (forall d, d ∈ deps -> d ∈ io) ->
  rangeDependencies visit deps io els s = Done ((io, els, None, ""), s).
Proof.
  induction deps as [|d rest IH]; intros Hsub; simpl; [reflexivity|].
  assert (Hd : IsElementInStringSlice io d = true)
    by (apply IsElementInStringSlice_spec, Hsub; left).
  rewrite Hd. apply IH. intros d' Hd'. apply Hsub. by right.
Qed.

Lemma addToInitOrder_ready fuel io e wl els s :
  e ∉ wl -> (forall d, d ∈ dependenciesOf s e -> d ∈ io) ->
  addToInitOrder (S fuel) io e wl els s =
  Done ((io ++ [e], RemoveFromStringSlice els e, None, ""), s).
Proof.
  intros Hwl Hdeps. simpl.
  apply IsElementInStringSlice_false in Hwl. rewrite Hwl.
  destruct (length (dependenciesOf s e) =? 0)%nat; [reflexivity|].
  by rewrite rangeDependencies_all_done.
Qed.

Lemma RemoveFromStringSlice_head e els : RemoveFromStringSlice (e :: els) e = els.
Proof. simpl. by rewrite String.eqb_refl. Qed.

Lemma InitOrder_loop_sorted σ depth : forall els fuel io,
  length els < fuel -> depsFirst σ (io ++ els) ->
  InitOrder_loop fuel (S depth) io els [] σ = Done ((io ++ els, None, ""), σ).
Proof.
  induction els as [|e els' IH]; intros fuel io Hfuel Hdf;
    (destruct fuel as [|fuel]; [simpl in Hfuel; lia|]).
  - simpl. by rewrite app_nil_r.
  - cbn [InitOrder_loop].
    rewrite addToInitOrder_ready.
    + rewrite RemoveFromStringSlice_head.
      replace (io ++ e :: els') with ((io ++ [e]) ++ els') by (by rewrite <- app_assoc).
      apply IH; [simpl in Hfuel; lia|]. by rewrite <- app_assoc.
    + intros H. inversion H.
    + intros d Hd.
      destruct (Hdf (length io) e) with (d := d) as (i & Hi & Hi'); [|exact Hd|].
      * rewrite lookup_app_r by lia. by rewrite Nat.sub_diag.
      * rewrite lookup_app_l in Hi' by exact Hi. apply list_elem_of_lookup. by exists i.
Qed.

(** X3.  When the insertion order already has every dependency of an
    element before the element, [InitOrder] returns the insertion order as
    it is. *)
Theorem InitOrder_keeps_valid_insertion_order σ :
  depsFirst σ (systemElements (system σ)) ->
  InitOrder σ = Done ((systemElements (system σ), None, ""), σ).
Proof.
  intros Hdf. unfold InitOrder.
  apply (InitOrder_loop_sorted σ _ (systemElements (system σ)) _ []); [lia | exact Hdf].
Qed.

Lemma InitOrder_keeps_valid_insertion_order_witness :
  depsFirst linearGraph (systemElements (system linearGraph)) /\
  InitOrder linearGraph = Done ((systemElements (system linearGraph), None, ""), linearGraph).
Proof.
  assert (Hdf : depsFirst linearGraph (systemElements (system linearGraph))).
  { assert (E : systemElements (system linearGraph) = ["A"; "B"; "C"])
      by (vm_compute; reflexivity).
    assert (EA : dependenciesOf linearGraph "A" = []) by (vm_compute; reflexivity).
    assert (EB : dependenciesOf linearGraph "B" = ["A"]) by (vm_compute; reflexivity).
    assert (EC : dependenciesOf linearGraph "C" = ["A"; "B"]) by (vm_compute; reflexivity).
    rewrite E. intros j x Hj d Hd.
    destruct j as [|[|[|j]]]; simpl in Hj; try discriminate; injection Hj as <-.
    - rewrite EA in Hd. inversion Hd.
    - rewrite EB in Hd. apply list_elem_of_singleton in Hd as ->.
      exists 0. split; [lia | reflexivity].
    - rewrite EC in Hd. apply elem_of_cons in Hd as [->|Hd].
      + exists 0. split; [lia | reflexivity].
      + apply list_elem_of_singleton in Hd as ->. exists 1. split; [lia | reflexivity]. }
  split; [exact Hdf|]. exact (InitOrder_keeps_valid_insertion_order linearGraph Hdf).
Defined.

(** ** [InitOrder] after one more [AddElement] *)

Lemma addToInitOrder_S fuel io e wl els s :
  addToInitOrder (S fuel) io e wl els s =
  if IsElementInStringSlice wl e then
    Done (([], [], Some ErrCircleDetected, circleText e), s)
  else if (length (dependenciesOf s e) =? 0)%nat then
    Done ((io ++ [e], RemoveFromStringSlice els e, None, ""), s)
  else
    match rangeDependencies
            (fun io0 d els0 s0 => addToInitOrder fuel io0 d (wl ++ [e]) els0 s0)
            (dependenciesOf s e) io els s with
    | Done ((io', els', None, _), s') =>
        Done ((io' ++ [e], RemoveFromStringSlice els' e, None, ""), s')
    | other => other
    end.
Proof. reflexivity. Qed.

Lemma RemoveFromStringSlice_app_new els e new :
  e ≠ new -> RemoveFromStringSlice (els ++ [new]) e = RemoveFromStringSlice els e ++ [new].
Proof.
  intros Hne. induction els as [|v els IH]; simpl.
  - destruct (String.eqb_spec new e); [congruence | reflexivity].
  - destruct (String.eqb_spec v e); [reflexivity|]. by rewrite IH.
Qed.

Lemma RemoveFromStringSlice_sub els e x :
  x ∈ RemoveFromStringSlice els e -> x ∈ els.
Proof.
  induction els as [|v els IH]; simpl; [done|].
  destruct (String.eqb_spec v e); [by right|].
  rewrite !elem_of_cons. intros [->|H]; [by left | right; by apply IH].
Qed.

Lemma IndexInStringSlice_app_new els d new :
  d ≠ new ->
  (IndexInStringSlice (els ++ [new]) d =? -1)%Z = (IndexInStringSlice els d =? -1)%Z.
Proof.
  intros Hne. destruct (IndexInStringSlice els d =? -1)%Z eqn:E.
  - apply IndexInStringSlice_spec in E. apply IndexInStringSlice_spec.
    rewrite elem_of_app, list_elem_of_singleton. tauto.
  - apply IndexInStringSlice_found in E. apply IndexInStringSlice_found.
    apply elem_of_app. by left.
Qed.

Section Appended.

Variables σ σ' : state.
Variable new : string.
Hypothesis same_deps : forall x, x ≠ new -> dependenciesOf σ' x = dependenciesOf σ x.

Lemma rangeDependencies_appended visit visit' :
  (forall io d els r s1,
      visit io d els σ = Done (r, s1) -> new ∉ io -> new ∉ els -> d ≠ new ->
      r ≠ missingOf new ->
      s1 = σ /\ visit' io d (els ++ [new]) σ' = Done (extendWith new r, σ') /\
      keepsOut new io els r) ->
  forall deps io els r s1,
    rangeDependencies visit deps io els σ = Done (r, s1) -> new ∉ io -> new ∉ els ->
    r ≠ missingOf new ->
    s1 = σ /\ rangeDependencies visit' deps io (els ++ [new]) σ' = Done (extendWith new r, σ') /\
    keepsOut new io els r.
Proof.
  intros Hv deps. induction deps as [|d rest IH]; intros io els r s1; simpl.
  - intros [= <- <-] Hio Hels _. split; [reflexivity|]. split; [reflexivity|].
    simpl. by repeat split.
  - destruct (IsElementInStringSlice io d) eqn:Hd; [apply IH|].
    destruct (IndexInStringSlice els d =? -1)%Z eqn:Hidx.
    + intros [= <- <-] Hio Hels Hr.
      assert (Hne : d ≠ new) by (intros ->; by apply Hr).
      rewrite (IndexInStringSlice_app_new _ _ _ Hne), Hidx. by repeat split.
    + intros Hrun Hio Hels Hr.
      assert (Hne : d ≠ new).
      { intros ->. apply IndexInStringSlice_found in Hidx. contradiction. }
      rewrite (IndexInStringSlice_app_new _ _ _ Hne), Hidx.
      destruct (visit io d els σ) as [[[[[io1 els1] [err1|]] descr1] s2]| |] eqn:E;
        try discriminate.
      * injection Hrun as <- <-.
        destruct (Hv _ _ _ _ _ E Hio Hels Hne) as (-> & -> & _).
        { intros H. apply Hr. unfold missingOf in *. by injection H as _ _ -> ->. }
        by repeat split.
      * destruct (Hv _ _ _ _ _ E Hio Hels Hne) as (-> & -> & Hk); [discriminate|].
        simpl in Hk. destruct Hk as (Hio1 & Hels1 & Hcov). simpl.
        destruct (IH _ _ _ _ Hrun Hio1 Hels1 Hr) as (-> & -> & Hk2).
        split; [reflexivity|]. split; [reflexivity|].
        destruct r as [[[io2 els2] [err2|]] descr2]; [exact I|].
        simpl in Hk2 |- *. destruct Hk2 as (H1 & H2 & H3). auto.
Qed.

Lemma addToInitOrder_appended fuel : forall io e wl els r s1,
  addToInitOrder fuel io e wl els σ = Done (r, s1) -> new ∉ io -> new ∉ els -> e ≠ new ->
  r ≠ missingOf new ->
  s1 = σ /\ addToInitOrder (S fuel) io e wl (els ++ [new]) σ' = Done (extendWith new r, σ') /\
  keepsOut new io els r.
Proof.
  induction fuel as [|fuel IH]; intros io e wl els r s1; [discriminate|].
  intros Hrun Hio Hels Hne Hr. revert Hrun.
  rewrite (addToInitOrder_S (S fuel)), (addToInitOrder_S fuel).
  rewrite (same_deps e) by assumption.
  destruct (IsElementInStringSlice wl e).
  { intros [= <- <-]. by repeat split. }
  destruct (length (dependenciesOf σ e) =? 0)%nat.
  { intros [= <- <-]. split; [reflexivity|].
    rewrite (RemoveFromStringSlice_app_new _ _ _ Hne). split; [reflexivity|].
    simpl. split; [|split].
    - rewrite elem_of_app, list_elem_of_singleton. intros [H|H]; [by apply Hio | congruence].
    - intros H. by apply Hels, (RemoveFromStringSlice_sub _ e).
    - intros x [Hx|Hx]; [left; apply elem_of_app; by left|].
      destruct (decide (x = e)) as [->|Hxe].
      + left. apply elem_of_app. right. by left.
      + right. by apply remove_keeps. }
  intros Hrun.
  pose proof (rangeDependencies_appended
                (fun io0 d els0 s0 => addToInitOrder fuel io0 d (wl ++ [e]) els0 s0)
                (fun io0 d els0 s0 => addToInitOrder (S fuel) io0 d (wl ++ [e]) els0 s0)
                (fun io0 d els0 r0 s0 => IH io0 d (wl ++ [e]) els0 r0 s0)
                (dependenciesOf σ e) io els) as Hloop.
  destruct (rangeDependencies _ (dependenciesOf σ e) io els σ)
    as [[[[[io1 els1] [err1|]] descr1] s2]| |] eqn:E; try discriminate.
  - injection Hrun as <- <-.
    destruct (Hloop _ _ eq_refl Hio Hels Hr) as (-> & -> & _). by repeat split.
  - injection Hrun as <- <-.
    destruct (Hloop _ _ eq_refl Hio Hels) as (-> & -> & Hk); [discriminate|].
    simpl in Hk. destruct Hk as (Hio1 & Hels1 & Hcov). simpl.
    rewrite (RemoveFromStringSlice_app_new _ _ _ Hne).
    split; [reflexivity|]. split; [reflexivity|]. split; [|split].
    + rewrite elem_of_app, list_elem_of_singleton. intros [H|H]; [by apply Hio1 | congruence].
    + intros H. by apply Hels1, (RemoveFromStringSlice_sub _ e).
    + intros x Hx. destruct (Hcov x Hx) as [Hx'|Hx']; [left; apply elem_of_app; by left|].
      destruct (decide (x = e)) as [->|Hxe].
      * left. apply elem_of_app. right. by left.
      * right. by apply remove_keeps.
Qed.

Lemma InitOrder_loop_appended fuel depth : forall io els R s1,
  InitOrder_loop fuel depth io els [] σ = Done (R, s1) -> new ∉ io -> new ∉ els ->
  s1 = σ /\
  match R with
  | (order, None, _) =>
      (forall d, d ∈ dependenciesOf σ' new -> d ∈ io \/ d ∈ els) ->
      InitOrder_loop (S fuel) (S depth) io (els ++ [new]) [] σ' =
      Done ((order ++ [new], None, ""), σ')
  | (_, Some err, descr) =>
      (err, descr) ≠ (ErrElementMissing, missingText new) ->
      InitOrder_loop (S fuel) (S depth) io (els ++ [new]) [] σ' =
      Done (([], Some err, descr), σ')
  end.
Proof.
  induction fuel as [|fuel IH]; intros io els R s1; [discriminate|].
  destruct els as [|e els'].
  - intros [= <- <-] Hio _. split; [reflexivity|]. intros Hnew.
    cbn [InitOrder_loop app]. rewrite addToInitOrder_ready.
    + rewrite RemoveFromStringSlice_head. reflexivity.
    + intros H. inversion H.
    + intros d Hd. destruct (Hnew d Hd) as [H|H]; [exact H | inversion H].
  - cbn [InitOrder_loop app]. intros Hrun Hio Hels.
    assert (Hne : e ≠ new) by (intros ->; apply Hels; left).
    destruct (addToInitOrder depth io e [] (e :: els') σ)
      as [[[[[io1 els1] [err1|]] descr1] s2]| |] eqn:E; try discriminate.
    + injection Hrun as <- <-.
      pose proof (addToInitOrder_frame _ _ _ _ _ _ _ _ E) as ->.
      split; [reflexivity|]. intros Hr.
      destruct (addToInitOrder_appended _ _ _ _ _ _ _ E Hio Hels Hne) as (_ & Hnew & _).
      { intros H. apply Hr. unfold missingOf in H. by injection H as _ _ -> ->. }
      change (e :: els' ++ [new]) with ((e :: els') ++ [new]). by rewrite Hnew.
    + destruct (addToInitOrder_appended _ _ _ _ _ _ _ E Hio Hels Hne)
        as (-> & Hnew & Hk); [discriminate|].
      simpl in Hk. destruct Hk as (Hio1 & Hels1 & Hcov).
      change (e :: els' ++ [new]) with ((e :: els') ++ [new]). rewrite Hnew. simpl.
      destruct (IH _ _ _ _ Hrun Hio1 Hels1) as [-> HR]. split; [reflexivity|].
      destruct R as [[order [err|]] descr]; [exact HR|].
      intros Hdeps. apply HR. intros d Hd. apply Hcov. by apply Hdeps.
Qed.

End Appended.

Lemma AddElement_success_fresh σ id deps :
  wf σ -> fst (AddElement σ id deps) = None -> id ∉ systemElements (system σ).
Proof.
  intros Hwf Hok Hin. destruct (AddElement_present σ id deps Hwf Hin) as [H _]. contradiction.
Qed.

Lemma dependenciesOf_added_ne σ id deps x :
  fst (AddElement σ id deps) = None -> x ≠ id ->
  dependenciesOf (snd (AddElement σ id deps)) x = dependenciesOf σ x.
Proof.
  intros Hok Hne. unfold dependenciesOf.
  rewrite (AddElement_success _ _ _ Hok). simpl.
  rewrite lookup_insert_ne by congruence. apply contents_arrays, AddElement_arrays.
Qed.

Lemma dependenciesOf_added_eq σ id deps :
  fst (AddElement σ id deps) = None ->
  dependenciesOf (snd (AddElement σ id deps)) id = contents σ deps.
Proof.
  intros Hok. unfold dependenciesOf.
  rewrite (AddElement_success _ _ _ Hok). simpl.
  rewrite lookup_insert_eq. apply contents_arrays, AddElement_arrays.
Qed.

Lemma InitOrder_added σ id deps :
  fst (AddElement σ id deps) = None ->
  InitOrder (snd (AddElement σ id deps)) =
  InitOrder_loop (S (S (length (systemElements (system σ)))))
                 (S (S (length (systemElements (system σ))))) []
                 (systemElements (system σ) ++ [id]) [] (snd (AddElement σ id deps)).
Proof.
  intros Hok. unfold InitOrder. rewrite (AddElement_success _ _ _ Hok). simpl.
  by rewrite length_app, Nat.add_1_r.
Qed.

(** X4.  When [InitOrder] succeeds on a graph a program can build and an
    element is then added whose dependencies are all in that graph,
    [InitOrder] returns the former order with the new element at its end. *)
Theorem InitOrder_after_AddElement σ order descr σ1 id deps :
  reachable σ ->
  InitOrder σ = Done ((order, None, descr), σ1) ->
  fst (AddElement σ id deps) = None ->
  (forall d, d ∈ contents σ deps -> d ∈ systemElements (system σ)) ->
  InitOrder (snd (AddElement σ id deps)) =
  Done ((order ++ [id], None, ""), snd (AddElement σ id deps)).
Proof.
  intros Hreach Hrun Hok Hdeps. apply reachable_wf in Hreach.
  pose proof (AddElement_success_fresh _ _ _ Hreach Hok) as Hfresh.
  rewrite (InitOrder_added _ _ _ Hok).
  destruct (InitOrder_loop_appended σ (snd (AddElement σ id deps)) id
              (fun x Hx => dependenciesOf_added_ne σ id deps x Hok Hx)
              _ _ _ _ _ _ Hrun) as [_ H]; [by inversion 1 | exact Hfresh |].
  apply H. intros d Hd. right. apply Hdeps. by rewrite <- (dependenciesOf_added_eq _ _ _ Hok).
Qed.

Lemma InitOrder_after_AddElement_witness :
  reachable linearGraph /\
  InitOrder linearGraph = Done ((["A"; "B"; "C"], None, ""), linearGraph) /\
  fst (AddElement linearGraph "D" (Slice 6 0 2)) = None /\
  (forall d, d ∈ contents linearGraph (Slice 6 0 2) ->
             d ∈ systemElements (system linearGraph)) /\
  InitOrder (snd (AddElement linearGraph "D" (Slice 6 0 2))) =
  Done ((["A"; "B"; "C"] ++ ["D"], None, ""), snd (AddElement linearGraph "D" (Slice 6 0 2))).
Proof.
  assert (Hreach : reachable linearGraph)
    by (repeat apply reachable_added; apply reachable_fresh).
  assert (Hrun : InitOrder linearGraph = Done ((["A"; "B"; "C"], None, ""), linearGraph))
    by (vm_compute; reflexivity).
  assert (Hok : fst (AddElement linearGraph "D" (Slice 6 0 2)) = None)
    by (vm_compute; reflexivity).
  assert (Hdeps : forall d, d ∈ contents linearGraph (Slice 6 0 2) ->
                            d ∈ systemElements (system linearGraph)).
  { assert (E1 : contents linearGraph (Slice 6 0 2) = ["B"; "C"]) by (vm_compute; reflexivity).
    assert (E2 : systemElements (system linearGraph) = ["A"; "B"; "C"])
      by (vm_compute; reflexivity).
    rewrite E1, E2. intros d Hd. apply elem_of_cons in Hd as [->|Hd].
    - apply list_elem_of_further, list_elem_of_here.
    - apply list_elem_of_singleton in Hd as ->.
      do 2 apply list_elem_of_further. apply list_elem_of_here. }
  split; [exact Hreach|]. split; [exact Hrun|]. split; [exact Hok|]. split; [exact Hdeps|].
  exact (InitOrder_after_AddElement linearGraph _ _ _ "D" (Slice 6 0 2) Hreach Hrun Hok Hdeps).
Defined.

(** X5.  A failure of [InitOrder] on a graph a program can build stays the
    same failure after any call of [AddElement], unless it is the missing
    dependency itself that is added: a circle is never repaired, and a
    missing dependency only by adding it. *)
Theorem InitOrder_failure_persists σ order err descr σ1 id deps :
  reachable σ ->
  InitOrder σ = Done ((order, Some err, descr), σ1) ->
  (err, descr) ≠ (ErrElementMissing, "Dependency '" +:+ id +:+ "' is missing") ->
  InitOrder (snd (AddElement σ id deps)) =
  Done (([], Some err, descr), snd (AddElement σ id deps)).
Proof.
  intros Hreach Hrun Hne. apply reachable_wf in Hreach.
  destruct (InitOrder_failure_reason _ _ _ _ _ Hrun) as (-> & -> & _).
  destruct (fst (AddElement σ id deps)) as [e|] eqn:Hok.
  { rewrite AddElement_failure by congruence. exact Hrun. }
  pose proof (AddElement_success_fresh _ _ _ Hreach Hok) as Hfresh.
  rewrite (InitOrder_added _ _ _ Hok).
  destruct (InitOrder_loop_appended σ (snd (AddElement σ id deps)) id
              (fun x Hx => dependenciesOf_added_ne σ id deps x Hok Hx)
              _ _ _ _ _ _ Hrun) as [_ H]; [by inversion 1 | exact Hfresh |].
  by apply H.
Qed.

Lemma InitOrder_failure_persists_witness :
  reachable selfCycle /\
  InitOrder selfCycle =
    Done (([], Some ErrCircleDetected, "Element 'A' is part of the circle."), selfCycle) /\
  (ErrCircleDetected, "Element 'A' is part of the circle.")
    ≠ (ErrElementMissing, "Dependency '" +:+ "B" +:+ "' is missing") /\
  InitOrder (snd (AddElement selfCycle "B" nilSlice)) =
  Done (([], Some ErrCircleDetected, "Element 'A' is part of the circle."),
        snd (AddElement selfCycle "B" nilSlice)).
Proof.
  assert (Hreach : reachable selfCycle) by (apply reachable_added, reachable_fresh).
  assert (Hrun : InitOrder selfCycle =
    Done (([], Some ErrCircleDetected, "Element 'A' is part of the circle."), selfCycle))
    by (vm_compute; reflexivity).
  assert (Hne : (ErrCircleDetected, "Element 'A' is part of the circle.")
                ≠ (ErrElementMissing, "Dependency '" +:+ "B" +:+ "' is missing"))
    by discriminate.
  split; [exact Hreach|]. split; [exact Hrun|]. split; [exact Hne|].
  exact (InitOrder_failure_persists selfCycle _ _ _ _ "B" nilSlice Hreach Hrun Hne).
Defined.

(** ** The earlier copy against the later copy *)

Lemma rangeDependencies_toLater visit1 visit2 :
  (forall io d els s, visit1 io d els s = toLater (visit2 io d els s)) ->
  forall deps io els s,
    rangeDependencies visit1 deps io els s = toLater (rangeDependencies visit2 deps io els s).
Proof.
  intros Hv deps. induction deps as [|d rest IH]; intros io els s; simpl; [reflexivity|].
  destruct (IsElementInStringSlice io d); [apply IH|].
  destruct (IndexInStringSlice els d =? -1)%Z; [reflexivity|].
  rewrite Hv.
  destruct (visit2 io d els s) as [[[[[io1 els1] [err1|]] descr1] s1]| |]; simpl;
    try reflexivity.
  apply IH.
Qed.

Lemma circleText_legacy e :
  ("Element '" +:+ e +:+ "' is part of the circle") +:+ "." = circleText e.
Proof. unfold circleText. by rewrite !append_assoc. Qed.

Lemma Legacy_addToInitOrder_toLater fuel : forall io e wl els s,
  addToInitOrder fuel io e wl els s = toLater (Legacy.addToInitOrder fuel io e wl els s).
Proof.
  induction fuel as [|fuel IH]; intros io e wl els s; simpl; [reflexivity|].
  destruct (IsElementInStringSlice wl e).
  { simpl. by rewrite circleText_legacy. }
  destruct (length (dependenciesOf s e) =? 0)%nat; [reflexivity|].
  rewrite (rangeDependencies_toLater _
             (fun io0 d els0 s0 => Legacy.addToInitOrder fuel io0 d (wl ++ [e]) els0 s0))
    by (intros; apply IH).
  by destruct (rangeDependencies _ (dependenciesOf s e) io els s)
    as [[[[[io1 els1] [err1|]] descr1] s1]| |].
Qed.

Lemma addToInitOrder_ok σ fuel io e els :
  io ++ els ≡ₚ systemElements (system σ) -> e ∈ els -> depsFirst σ io ->
  length els < fuel ->
  exists r, addToInitOrder fuel io e [] els σ = Done (r, σ) /\ post σ io e [] r.
Proof.
  intros HG He Hdf Hfuel.
  destruct (addToInitOrderT_ok σ fuel io e [] els) as (r & log & Hrun & _ & Hpost);
    try assumption.
  - intros w Hw. inversion Hw.
  - constructor.
  - simpl. lia.
  - exists r. split; [|exact Hpost]. by rewrite <- erase_addToInitOrder, Hrun.
Qed.

Lemma loops_agree σ depth : forall n io els f1 f2,
  length els <= n -> n < f1 -> n <= f2 -> els ≠ [] ->
  io ++ els ≡ₚ systemElements (system σ) -> depsFirst σ io -> length els < depth ->
  exists order err descr,
    InitOrder_loop f1 depth io els [] σ = Done ((order, err, laterText err descr), σ) /\
    Legacy.InitOrder_loop f2 depth io els [] σ = Done ((order, err, descr), σ).
Proof.
  induction n as [|n IH]; intros io els f1 f2 Hn Hf1 Hf2 Hne HG Hdf Hdepth.
  { destruct els; [congruence | simpl in Hn; lia]. }
  destruct els as [|e els']; [congruence|].
  destruct f1 as [|f1]; [lia|]. destruct f2 as [|f2]; [lia|].
  destruct (addToInitOrder_ok σ depth io e (e :: els') HG) as (r & Hrun & Hpost);
    [by left | exact Hdf | exact Hdepth |].
  pose proof (Legacy_addToInitOrder_toLater depth io e [] (e :: els') σ) as Hleg.
  rewrite Hrun in Hleg. cbn [InitOrder_loop Legacy.InitOrder_loop]. rewrite Hrun.
  destruct (Legacy.addToInitOrder depth io e [] (e :: els') σ)
    as [[[[[io1 els1] err1] descr1] s1]| |]; simpl in Hleg; try discriminate.
  injection Hleg as -> ->. destruct err1 as [err1|].
  { by exists [], (Some err1), descr1. }
  simpl in Hpost. destruct Hpost as (H1 & _ & H3 & [mid ->]).
  pose proof (split_shrinks _ io (e :: els') (mid ++ [e]) els1 HG H1) as Hs.
  rewrite length_app in Hs. simpl in Hs, Hn, Hdepth.
  destruct els1 as [|e1 els1'].
  - exists (io ++ mid ++ [e]), None, "". split; [|reflexivity].
    destruct f1 as [|f1]; [lia | reflexivity].
  - change (length (e1 :: els1') =? 0)%nat with false. cbv iota.
    apply IH; try assumption; simpl in *; try lia. congruence.
Qed.

(** X6.  On a graph with at least one element the earlier copy of
    [InitOrder] returns, and returns the order and the error of the later
    copy; the descriptions differ only in the full stop that ends the later
    copy's text for a circle. *)
Theorem Legacy_InitOrder_agrees σ :
  systemElements (system σ) ≠ [] ->
  exists order err descr,
    Legacy.InitOrder σ = Done ((order, err, descr), σ) /\
    InitOrder σ =
    Done ((order, err,
           match err with Some ErrCircleDetected => descr +:+ "." | _ => descr end), σ).
Proof.
  intros Hne.
  destruct (loops_agree σ (S (length (systemElements (system σ))))
              (length (systemElements (system σ))) [] (systemElements (system σ))
              (S (length (systemElements (system σ))))
              (S (length (systemElements (system σ)))))
    as (order & err & descr & H1 & H2); try lia; try done; try apply depsFirst_nil.
  exists order, err, descr. by split.
Qed.

Lemma Legacy_InitOrder_agrees_witness :
  systemElements (system mutualCycle) ≠ [] /\
  exists order err descr,
    Legacy.InitOrder mutualCycle = Done ((order, err, descr), mutualCycle) /\
    InitOrder mutualCycle =
    Done ((order, err,
           match err with Some ErrCircleDetected => descr +:+ "." | _ => descr end),
          mutualCycle).
Proof.
  assert (Hne : systemElements (system mutualCycle) ≠ []).
  { assert (E : systemElements (system mutualCycle) = ["X"; "Y"]) by (vm_compute; reflexivity).
    rewrite E. discriminate. }
  split; [exact Hne|]. exact (Legacy_InitOrder_agrees mutualCycle Hne).
Defined.

(** ** Graphs built with the earlier copy *)

Lemma Legacy_AddElement_inv σ id deps :
  NoDup (systemElements (system σ)) ->
  addedElements (system σ) = addedText (systemElements (system σ)) ->
  NoDup (systemElements (system (snd (Legacy.AddElement σ id deps)))) /\
  addedElements (system (snd (Legacy.AddElement σ id deps)))
  = addedText (systemElements (system (snd (Legacy.AddElement σ id deps)))).
Proof.
  intros Hnd Hadded. unfold Legacy.AddElement.
  destruct (Contains _ _) eqn:HC; [by split|]. simpl. split.
  - apply NoDup_app. split; [exact Hnd|]. split; [|apply NoDup_singleton].
    intros x Hx Hx'. apply list_elem_of_singleton in Hx' as ->.
    apply Contains_addedText in Hx. rewrite <- Hadded in Hx. congruence.
  - rewrite addedText_app, Hadded. simpl. by rewrite append_Empty_r.
Qed.

Lemma legacyReachable_inv σ :
  legacyReachable σ ->
  NoDup (systemElements (system σ)) /\
  addedElements (system σ) = addedText (systemElements (system σ)).
Proof.
  induction 1 as [mem | σ id deps _ [IH1 IH2] | σ a i v _ IH].
  - split; [apply NoDup_nil_2 | reflexivity].
  - by apply Legacy_AddElement_inv.
  - exact IH.
Qed.

(** X7.  On a graph built with the earlier copy, an order that the earlier
    copy of [InitOrder] returns without error holds every identifier of the
    graph exactly once, each after all its dependencies. *)
Theorem Legacy_InitOrder_valid_order σ order descr σ' :
  legacyReachable σ ->
  Legacy.InitOrder σ = Done ((order, None, descr), σ') ->
  NoDup order /\
  (forall id, id ∈ order <-> id ∈ systemElements (system σ)) /\
  (forall e d, e ∈ systemElements (system σ) -> d ∈ dependenciesOf σ e ->
               precedes d e order).
Proof.
  intros Hreach Hrun. apply legacyReachable_inv in Hreach as [Hnd _].
  assert (Hne : systemElements (system σ) ≠ []).
  { intros E. unfold Legacy.InitOrder in Hrun. rewrite E in Hrun. discriminate. }
  destruct (loops_agree σ (S (length (systemElements (system σ))))
              (length (systemElements (system σ))) [] (systemElements (system σ))
              (S (length (systemElements (system σ))))
              (S (length (systemElements (system σ)))))
    as (order' & err' & descr' & H1 & H2); try lia; try done; try apply depsFirst_nil.
  unfold Legacy.InitOrder in Hrun. cbv zeta in Hrun. rewrite H2 in Hrun.
  injection Hrun as -> -> -> _.
  apply InitOrder_success_facts in H1 as (Hperm & Hdf & _).
  split; [by rewrite Hperm|]. split; [intros id; by rewrite Hperm|].
  intros e d He Hd. rewrite <- Hperm in He.
  apply list_elem_of_lookup in He as [j Hj].
  destruct (Hdf j e Hj d Hd) as (i & Hij & Hi). by exists i, j.
Qed.

Lemma Legacy_InitOrder_valid_order_witness :
  legacyReachable legacyGraph /\
  Legacy.InitOrder legacyGraph = Done (([""; "B"], None, ""), legacyGraph) /\
  NoDup [""; "B"] /\
  (forall id, id ∈ [""; "B"] <-> id ∈ systemElements (system legacyGraph)) /\
  (forall e d, e ∈ systemElements (system legacyGraph) ->
               d ∈ dependenciesOf legacyGraph e -> precedes d e [""; "B"]).
Proof.
  assert (Hreach : legacyReachable legacyGraph)
    by (do 2 apply legacy_AddElement; apply legacy_New).
  assert (Hrun : Legacy.InitOrder legacyGraph = Done (([""; "B"], None, ""), legacyGraph))
    by (vm_compute; reflexivity).
  split; [exact Hreach|]. split; [exact Hrun|].
  exact (Legacy_InitOrder_valid_order legacyGraph _ _ _ Hreach Hrun).
Defined.

(** X8.  With the earlier copy, the empty identifier is accepted on a graph
    without elements and on no other: once an element is stored,
    [addedElements] holds a ['/'] and the test takes the empty identifier
    as already added. *)
Theorem Legacy_empty_identifier_first_only σ deps :
  legacyReachable σ ->
  (fst (Legacy.AddElement σ "" deps) = None <-> systemElements (system σ) = []) /\
  (systemElements (system σ) ≠ [] ->
   Legacy.AddElement σ "" deps = (Some ErrAlreadyAdded, σ)).
Proof.
  intros Hreach. apply legacyReachable_inv in Hreach as [_ Hadded].
  unfold Legacy.AddElement. rewrite Hadded.
  destruct (systemElements (system σ)) as [|g rest].
  - split; [by split | congruence].
  - assert (HC : Contains (addedText (g :: rest)) ("" +:+ "/") = true).
    { simpl. rewrite append_Empty. apply Contains_middle. }
    rewrite HC. split; [split; discriminate | reflexivity].
Qed.

Lemma Legacy_empty_identifier_first_only_witness :
  legacyReachable legacyGraph /\
  (fst (Legacy.AddElement legacyGraph "" nilSlice) = None
   <-> systemElements (system legacyGraph) = []) /\
  (systemElements (system legacyGraph) ≠ [] ->
   Legacy.AddElement legacyGraph "" nilSlice = (Some ErrAlreadyAdded, legacyGraph)).
Proof.
  assert (Hreach : legacyReachable legacyGraph)
    by (do 2 apply legacy_AddElement; apply legacy_New).
  split; [exact Hreach|].
  exact (Legacy_empty_identifier_first_only legacyGraph nilSlice Hreach).
Defined.

(** ** What [AddElement] keeps and what it refuses *)

(** X9.  In every graph a program can build with the later copy, no
    identifier is stored twice, none is empty, the keys of the dependency
    map are the stored identifiers, and [addedElements] is the stored
    identifiers in insertion order, each followed by ['/']. *)
Theorem reachable_graph_invariant σ :
  reachable σ ->
  NoDup (systemElements (system σ)) /\
  ("" ∉ systemElements (system σ)) /\
  (forall id, id ∈ systemElements (system σ) <-> is_Some (dependencies (system σ) !! id)) /\
  addedElements (system σ) = addedText (systemElements (system σ)).
Proof.
  intros Hreach. apply reachable_wf in Hreach as [H1 H2 H3 H4].
  split; [exact H1|]. split; [exact H4|]. split; [exact H3 | exact H2].
Qed.

Lemma reachable_graph_invariant_witness :
  reachable diamondGraph /\
  NoDup (systemElements (system diamondGraph)) /\
  ("" ∉ systemElements (system diamondGraph)) /\
  (forall id, id ∈ systemElements (system diamondGraph)
              <-> is_Some (dependencies (system diamondGraph) !! id)) /\
  addedElements (system diamondGraph) = addedText (systemElements (system diamondGraph)).
Proof.
  assert (Hreach : reachable diamondGraph)
    by (repeat apply reachable_added; apply reachable_fresh).
  split; [exact Hreach|]. exact (reachable_graph_invariant diamondGraph Hreach).
Defined.

Lemma noSlash_String c s :
  noSlash (String c s) = true -> c ≠ "/"%char /\ noSlash s = true.
Proof.
  simpl. intros H. apply andb_prop in H as [H1 H2]. split; [|exact H2].
  intros ->. by rewrite Ascii.eqb_refl in H1.
Qed.

Lemma prefix_String x a c s :
  String.prefix (String x a) (String c s) =
  if Ascii.ascii_dec x c then String.prefix a s else false.
Proof. reflexivity. Qed.

Lemma prefix_slash a : forall b T,
  noSlash a = true -> noSlash b = true ->
  String.prefix (a +:+ "/") (b +:+ "/" +:+ T) = true -> a = b.
Proof.
  induction a as [|x a IH]; intros b T Ha Hb.
  - rewrite append_Empty. destruct b as [|c b]; [done|].
    apply noSlash_String in Hb as [Hc _].
    rewrite append_String, prefix_String.
    destruct (Ascii.ascii_dec "/" c); [congruence | discriminate].
  - apply noSlash_String in Ha as [Hx Ha]. rewrite append_String.
    destruct b as [|c b].
    + rewrite append_Empty, (append_String "/" "" T), prefix_String.
      destruct (Ascii.ascii_dec x "/"); [congruence | discriminate].
    + apply noSlash_String in Hb as [_ Hb]. rewrite append_String, prefix_String.
      destruct (Ascii.ascii_dec x c) as [->|]; [|discriminate].
      intros H. by rewrite (IH b T Ha Hb H).
Qed.

Lemma Contains_slash id g : forall T,
  noSlash id = true -> noSlash g = true ->
  Contains (g +:+ "/" +:+ T) (id +:+ "/") = true ->
  (exists front, g = front +:+ id) \/ Contains T (id +:+ "/") = true.
Proof.
  induction g as [|c g IH]; intros T Hid Hg.
  - destruct (String.prefix (id +:+ "/") ("" +:+ "/" +:+ T)) eqn:E.
    + intros _. left. exists "". by rewrite (prefix_slash id "" T Hid Hg E).
    + rewrite append_Empty, (append_String "/" "" T), append_Empty in E |- *.
      cbn [Contains]. rewrite E. by right.
  - destruct (String.prefix (id +:+ "/") (String c g +:+ "/" +:+ T)) eqn:E.
    + intros _. left. exists "". by rewrite (prefix_slash id _ T Hid Hg E).
    + rewrite append_String in E |- *. cbn [Contains]. rewrite E.
      apply noSlash_String in Hg as [_ Hg]. intros H.
      destruct (IH T Hid Hg H) as [[front ->]|H']; [left | by right].
      by exists (String c front).
Qed.

Lemma Contains_addedText_inv id l :
  noSlash id = true -> (forall g, g ∈ l -> noSlash g = true) ->
  Contains (addedText l) (id +:+ "/") = true ->
  exists g front, g ∈ l /\ g = front +:+ id.
Proof.
  intros Hid. induction l as [|g l IH]; intros Hl.
  - simpl. destruct id; discriminate.
  - simpl. intros H.
    destruct (Contains_slash id g (addedText l) Hid (Hl g ltac:(left)) H)
      as [[front ->]|H'].
    + exists (front +:+ id), front. split; [left | reflexivity].
    + destruct IH as (g' & front & Hg' & ->); [intros; apply Hl; by right | exact H' |].
      exists (front +:+ id), front. split; [by right | reflexivity].
Qed.

(** X10.  For identifiers without ['/'], in a graph a program can build
    whose identifiers hold no ['/'], a call of [AddElement] that passes the
    validation fails with [ErrAlreadyAdded] exactly when an identifier of
    the graph ends with the new identifier, and succeeds otherwise. *)
Theorem AddElement_refused_iff_suffix σ id deps :
  reachable σ ->
  id ≠ "" -> "" ∉ contents σ deps ->
  noSlash id = true ->
  (forall g, g ∈ systemElements (system σ) -> noSlash g = true) ->
  (fst (AddElement σ id deps) = Some ErrAlreadyAdded <->
   exists g front, g ∈ systemElements (system σ) /\ g = front +:+ id) /\
  (fst (AddElement σ id deps) = None <->
   ~ exists g front, g ∈ systemElements (system σ) /\ g = front +:+ id).
Proof.
  intros Hreach Hid Hdeps Hns HG. apply reachable_wf in Hreach.
  assert (Hyes : (exists g front, g ∈ systemElements (system σ) /\ g = front +:+ id) ->
                 fst (AddElement σ id deps) = Some ErrAlreadyAdded).
  { intros (g & front & Hg & ->). by apply (AddElement_suffix_rejected σ front). }
  assert (Hcases :
    (fst (AddElement σ id deps) = Some ErrAlreadyAdded /\
     exists g front, g ∈ systemElements (system σ) /\ g = front +:+ id) \/
    (fst (AddElement σ id deps) = None /\
     ~ exists g front, g ∈ systemElements (system σ) /\ g = front +:+ id)).
  { destruct (Contains (addedElements (system σ)) (id +:+ "/")) eqn:HC.
    - left. assert (Hex : exists g front, g ∈ systemElements (system σ) /\ g = front +:+ id).
      { rewrite (wf_added _ Hreach) in HC. by apply Contains_addedText_inv. }
      split; [by apply Hyes | exact Hex].
    - right. assert (Hnone : fst (AddElement σ id deps) = None).
      { unfold AddElement.
        destruct (String.eqb_spec id ""); [congruence|].
        destruct (hasEmptyDependency (contents σ deps)) eqn:E.
        { apply hasEmptyDependency_spec in E. contradiction. }
        by rewrite HC. }
      split; [exact Hnone|]. intros Hex. apply Hyes in Hex. congruence. }
  destruct Hcases as [[H1 H2]|[H1 H2]]; rewrite H1.
  - split; split; try done; intros H; exfalso; by apply H.
  - split; split; try done; intros H; by apply H2 in H.
Qed.

Lemma AddElement_refused_iff_suffix_witness :
  reachable (added fresh "BA" nilSlice) /\
  "A" ≠ "" /\ ("" ∉ contents (added fresh "BA" nilSlice) nilSlice) /\
  noSlash "A" = true /\
  (forall g, g ∈ systemElements (system (added fresh "BA" nilSlice)) -> noSlash g = true) /\
  (fst (AddElement (added fresh "BA" nilSlice) "A" nilSlice) = Some ErrAlreadyAdded <->
   exists g front,
     g ∈ systemElements (system (added fresh "BA" nilSlice)) /\ g = front +:+ "A") /\
  (fst (AddElement (added fresh "BA" nilSlice) "A" nilSlice) = None <->
   ~ exists g front,
       g ∈ systemElements (system (added fresh "BA" nilSlice)) /\ g = front +:+ "A").
Proof.
  assert (Hreach : reachable (added fresh "BA" nilSlice))
    by (apply reachable_added, reachable_fresh).
  assert (Hid : "A" ≠ "") by discriminate.
  assert (Hdeps : "" ∉ contents (added fresh "BA" nilSlice) nilSlice)
    by (intros H; inversion H).
  assert (Hns : noSlash "A" = true) by reflexivity.
  assert (HG : forall g, g ∈ systemElements (system (added fresh "BA" nilSlice)) ->
                         noSlash g = true).
  { assert (E : systemElements (system (added fresh "BA" nilSlice)) = ["BA"])
      by (vm_compute; reflexivity).
    rewrite E. intros g Hg. by apply list_elem_of_singleton in Hg as ->. }
  split; [exact Hreach|]. split; [exact Hid|]. split; [exact Hdeps|].
  split; [exact Hns|]. split; [exact HG|].
  exact (AddElement_refused_iff_suffix _ "A" nilSlice Hreach Hid Hdeps Hns HG).
Defined.

(** ** Indirect dependencies *)

(** X11.  In an order that [InitOrder] returns without error, an element
    of the graph comes after everything it depends on, directly or through
    other elements. *)
Theorem InitOrder_indirect_dependencies_first σ order descr σ' e d :
  InitOrder σ = Done ((order, None, descr), σ') ->
  e ∈ systemElements (system σ) ->
  tc (dependsOn σ) e d ->
  precedes d e order.
Proof.
  intros Hrun He Hdep.
  apply InitOrder_success_facts in Hrun as (Hperm & Hdf & _).
  rewrite <- Hperm in He. apply list_elem_of_lookup in He as [j Hj].
  destruct (depsFirst_tc σ order e d Hdf Hdep j Hj) as (i & Hij & Hi).
  by exists i, j.
Qed.

Lemma InitOrder_indirect_dependencies_first_witness :
  InitOrder diamondGraph = Done ((["A"; "B"; "C"; "D"], None, ""), diamondGraph) /\
  "D" ∈ systemElements (system diamondGraph) /\
  tc (dependsOn diamondGraph) "D" "A" /\
  precedes "A" "D" ["A"; "B"; "C"; "D"].
Proof.
  assert (Hrun : InitOrder diamondGraph
                 = Done ((["A"; "B"; "C"; "D"], None, ""), diamondGraph))
    by (vm_compute; reflexivity).
  assert (He : "D" ∈ systemElements (system diamondGraph)).
  { assert (E : systemElements (system diamondGraph) = ["A"; "B"; "C"; "D"])
      by (vm_compute; reflexivity).
    rewrite E. do 3 apply list_elem_of_further. apply list_elem_of_here. }
  assert (Hdep : tc (dependsOn diamondGraph) "D" "A").
  { assert (ED : dependenciesOf diamondGraph "D" = ["B"; "C"]) by (vm_compute; reflexivity).
    assert (EB : dependenciesOf diamondGraph "B" = ["A"]) by (vm_compute; reflexivity).
    apply tc_l with "B".
    - unfold dependsOn. rewrite ED. apply list_elem_of_here.
    - apply tc_once. unfold dependsOn. rewrite EB. apply list_elem_of_here. }
  split; [exact Hrun|]. split; [exact He|]. split; [exact Hdep|].
  exact (InitOrder_indirect_dependencies_first diamondGraph _ _ _ "D" "A" Hrun He Hdep).
Defined.
